(** * nutils.log: a shallow embedding of the logging module

    The development follows [nutils/log.py]: the file naming protocol of
    [_makedirs.open], the context stack of [ContextLog] and
    [ContextTreeLog], the concrete sinks [StdoutLog], [HtmlLog] and
    [IndentLog], the recorder [RecordLog] with [replay], and the registry of
    the active log maintained by [Log.__enter__] and [Log.__exit__].

    Python strings are Rocq strings, one element per character, the
    characters being those of code below 256; a text file holds the
    characters written to it, and an offset into it counts the bytes of
    their encoding.  Python integers are [Z].  The readings of [time.time()]
    are [Z] where they only select a branch, and binary64 floats in
    [RichOutputLog], whose timing is stated.  The level of a message is one
    of the five of [LEVELS].
    A call that may raise returns a [result], or the state it leaves
    together with the exception. *)

From stdpp Require Import base tactics option list functions gmap strings pretty.
From Stdlib Require Import ZArith Lia Ascii Floats.

Local Open Scope Z_scope.

#[local] Arguments String.append !_ _ / : simpl nomatch.

(** ** Exceptions and results *)

(** The exception classes the module raises or lets escape.  [FormatError]
    stands for whichever of ValueError, IndexError, KeyError and
    AttributeError [str.format] raises on a replacement field other than the
    empty one (see [format_count]). *)
Inductive exn : Type :=
  | RuntimeError (msg : string)
  | ValueError (msg : string)
  | TypeError
  | IndexError
  | AttributeError
  | FormatError.

Inductive result (A : Type) : Type :=
  | Ok (a : A)
  | Raise (e : exn).
Arguments Ok {A} a.
Arguments Raise {A} e.

#[global] Instance result_ret : MRet result := fun A a => Ok a.
#[global] Instance result_bind : MBind result := fun A B f r =>
  match r with
  | Ok a => f a
  | Raise e => Raise e
  end.
#[global] Instance result_fmap : FMap result := fun A B f r =>
  match r with
  | Ok a => Ok (f a)
  | Raise e => Raise e
  end.

(** ** Strings *)

Definition lbrace : ascii := ascii_of_nat 123.
Definition rbrace : ascii := ascii_of_nat 125.

(** [str(n)] for a Python integer. *)
Definition str (n : Z) : string := pretty n.

(** [c in s] for a one-character [c]. *)
Fixpoint contains (c : ascii) (s : string) : bool :=
  match s with
  | EmptyString => false
  | String a s' => if Ascii.eqb a c then true else contains c s'
  end.

(** [sep.join(l)]. *)
Fixpoint join (sep : string) (l : list string) : string :=
  match l with
  | [] => ""
  | [s] => s
  | s :: l' => s +:+ sep +:+ join sep l'
  end.

(** [p.rfind(c)]: the index of the last occurrence of [c], or [-1]. *)
Fixpoint rfind_from (c : ascii) (p : string) (i last : Z) : Z :=
  match p with
  | EmptyString => last
  | String a p' => rfind_from c p' (i + 1) (if Ascii.eqb a c then i else last)
  end.
Definition rfind (c : ascii) (p : string) : Z := rfind_from c p 0 (-1).

(** [p[:i]] and [p[i:]] for [0 <= i]. *)
Definition slice_to (p : string) (i : Z) : string :=
  String.substring 0 (Z.to_nat i) p.
Definition slice_from (p : string) (i : Z) : string :=
  String.substring (Z.to_nat i) (String.length p - Z.to_nat i) p.

(** [p[i:i+1] != c]. *)
Definition char_differs (p : string) (i : Z) (c : ascii) : bool :=
  match String.get (Z.to_nat i) p with
  | Some a => negb (Ascii.eqb a c)
  | None => true
  end.

Definition dquote : ascii := ascii_of_nat 34.
Definition newline : ascii := ascii_of_nat 10.
Definition carriage_return : ascii := ascii_of_nat 13.

(** [s.replace(c, '')] for a one-character [c]. *)
Fixpoint remove_char (c : ascii) (s : string) : string :=
  match s with
  | EmptyString => EmptyString
  | String a s' =>
      if Ascii.eqb a c then remove_char c s' else String a (remove_char c s')
  end.

(** [html.escape(s)], quotes included.  The library replaces the ampersand
    first and then the other four characters, which amounts to replacing
    each character of [s] on its own. *)
Definition escape_char (c : ascii) : string :=
  if Ascii.eqb c "&" then "&amp;"
  else if Ascii.eqb c "<" then "&lt;"
  else if Ascii.eqb c ">" then "&gt;"
  else if Ascii.eqb c dquote then "&quot;"
  else if Ascii.eqb c "'" then "&#x27;"
  else String c EmptyString.

Fixpoint html_escape (s : string) : string :=
  match s with
  | EmptyString => EmptyString
  | String c s' => escape_char c +:+ html_escape s'
  end.

(** The line boundaries of [str.splitlines] among the characters below
    256: LF, VT, FF, CR, FS, GS, RS and NEL. *)
Definition is_linebreak (c : ascii) : bool :=
  bool_decide (nat_of_ascii c ∈ [10; 11; 12; 13; 28; 29; 30; 133]%nat).

(** [s.splitlines()]: [cur] is the line being read; a CR LF pair is one
    boundary; a trailing boundary opens no further line. *)
Fixpoint splitlines_from (s : string) (cur : string) : list string :=
  match s with
  | EmptyString =>
      match cur with EmptyString => [] | _ => [cur] end
  | String c s' =>
      if is_linebreak c then
        cur :: match s' with
               | String d s'' =>
                   if Ascii.eqb c carriage_return && Ascii.eqb d newline
                   then splitlines_from s'' EmptyString
                   else splitlines_from s' EmptyString
               | EmptyString => splitlines_from s' EmptyString
               end
      else splitlines_from s' (cur +:+ String c EmptyString)
  end.
Definition splitlines (s : string) : list string :=
  splitlines_from s EmptyString.

(** [print(s, file=f)] and [print(s, end='', file=f)] on the text written to
    [f] so far. *)
Definition print (s : string) (endl : bool) (f : string) : string :=
  f +:+ s +:+ (if endl then String newline EmptyString else EmptyString).

(** [s[:-1]]. *)
Fixpoint drop_last (s : string) : string :=
  match s with
  | EmptyString => EmptyString
  | String _ EmptyString => EmptyString
  | String c s' => String c (drop_last s')
  end.

(** [s[0]] for a string that is not empty. *)
Definition first_char (s : string) : string := String.substring 0 1 s.

Module FileNaming.

(** ** [posixpath.splitext] *)

(** The loop of [genericpath._splitext] that skips leading dots: [true] when
    some character in [filenameIndex, dotIndex) is not a dot.  [todo] counts
    the indices left. *)
Fixpoint has_stem (p : string) (filenameIndex : Z) (todo : nat) : bool :=
  match todo with
  | O => false
  | S todo' =>
      if char_differs p filenameIndex "." then true
      else has_stem p (filenameIndex + 1) todo'
  end.

Definition splitext (p : string) : string * string :=
  let sepIndex := rfind "/" p in
  let dotIndex := rfind "." p in
  if (sepIndex <? dotIndex)
       && has_stem p (sepIndex + 1) (Z.to_nat (dotIndex - (sepIndex + 1)))
  then (slice_to p dotIndex, slice_from p dotIndex)
  else (p, "").

(** ** ['-{}'.join((root, ext)).format(n)] *)

(** [str.format] with the single positional argument [arg], scanning [t]
    from the left.  [used] tells whether the argument was consumed by an
    automatically numbered field.  A doubled brace is a literal brace; [{}]
    takes the next positional argument and there is only one; a lone brace
    is a ValueError.  Every other replacement field raises in a template
    that also holds [{}] (a second automatic field is out of range, a
    numbered field cannot be mixed with an automatic one, a named field is
    not among the keyword arguments): the model raises [FormatError]. *)
Fixpoint format_from (t : string) (used : bool) (arg : string)
  : result string :=
  match t with
  | EmptyString => Ok ""
  | String c t' =>
      if Ascii.eqb c lbrace then
        match t' with
        | EmptyString => Raise (ValueError "Single '{' encountered in format string")
        | String d t'' =>
            if Ascii.eqb d lbrace then String lbrace <$> format_from t'' used arg
            else if Ascii.eqb d rbrace then
              if used then Raise IndexError
              else String.append arg <$> format_from t'' true arg
            else Raise FormatError
        end
      else if Ascii.eqb c rbrace then
        match t' with
        | EmptyString => Raise (ValueError "Single '}' encountered in format string")
        | String d t'' =>
            if Ascii.eqb d rbrace then String rbrace <$> format_from t'' used arg
            else Raise (ValueError "Single '}' encountered in format string")
        end
      else String c <$> format_from t' used arg
  end.

Definition format_count (root ext : string) (n : Z) : result string :=
  format_from (join "-{}" [root; ext]) false (str n).

(** ** [_makedirs.open] *)

(** What [open] hands back: a real file created under the resolved name, or
    the [_devnull] sentinel carrying the requested name. *)
Inductive handle : Type :=
  | File (name : string) (mode : string)
  | Devnull (name : string).

(** The [for filename in map(..., itertools.count(n))] loop.  [budget]
    bounds the number of candidates tried; [open] passes one more than the
    size of the listing, which is enough for the loop to end ([None] stands
    for a loop that is still running when the budget is spent). *)
Fixpoint search (listdir : gset string) (root ext : string) (n : Z)
    (budget : nat) : option (result string) :=
  match budget with
  | O => None
  | S budget' =>
      match format_count root ext n with
      | Raise e => Some (Raise e)
      | Ok filename =>
          if decide (filename ∈ listdir) then
            search listdir root ext (n + 1) budget'
          else Some (Ok filename)
      end
  end.

Definition open (listdir : gset string) (filename mode exists_ : string)
  : option (result handle) :=
  if negb (bool_decide (mode ∈ ["w"; "wb"])) then
    Some (Raise (ValueError "invalid mode"))
  else if negb (bool_decide (exists_ ∈ ["overwrite"; "rename"; "skip"])) then
    Some (Raise (ValueError "invalid exists"))
  else if bool_decide (exists_ ≠ "overwrite") && bool_decide (filename ∈ listdir) then
    if bool_decide (exists_ = "skip") then Some (Ok (Devnull filename))
    else
      let '(root, ext) := splitext filename in
      r ← search listdir root ext 1 (S (size listdir));
      Some (name ← r; Ok (File name mode))
  else Some (Ok (File filename mode)).

(** The directory after [builtins.open] created [name] in it (flat
    directory: the name has no separator). *)
Definition created (listdir : gset string) (h : handle) : gset string :=
  match h with
  | File name _ => {[ name ]} ∪ listdir
  | Devnull _ => listdir
  end.

Definition no_braces (s : string) : Prop :=
  contains lbrace s = false ∧ contains rbrace s = false.

(** [name-n.ext] for the stem and extension of [filename]. *)
Definition numbered (filename : string) (n : Z) : string :=
  let '(root, ext) := splitext filename in root +:+ "-" +:+ str n +:+ ext.

End FileNaming.

(** ** Levels, worker rank, rendered events *)

(** The log levels, in the order of [LEVELS]. *)
Inductive level : Type := Error | Warning | User | Info | Debug.

#[global] Instance level_eq_dec : EqDecision level.
Proof. solve_decision. Defined.

Definition LEVELS : list level := [Error; Warning; User; Info; Debug].

Definition level_name (l : level) : string :=
  match l with
  | Error => "error"
  | Warning => "warning"
  | User => "user"
  | Info => "info"
  | Debug => "debug"
  end.

(** [parallel.procid]: [None] outside a fork, the rank of the worker inside
    one.  [truthy] is Python's truth value of it. *)
Definition truthy (procid : option Z) : bool :=
  match procid with
  | Some r => negb (r =? 0)
  | None => false
  end.

(** [l.pop()] for its effect on [l]. *)
Definition list_pop {A} (l : list A) : result (list A) :=
  match l with
  | [] => Raise IndexError
  | _ => Ok (removelast l)
  end.

(** [l[i:]] with Python's reading of a negative index. *)
Definition slice_list_from {A} (l : list A) (i : Z) : list A :=
  let n := Z.of_nat (length l) in
  let start := if i <? 0 then Z.max 0 (n + i) else i in
  drop (Z.to_nat start) l.

(** What a tree-style sink renders: one event per call of
    [_print_push_context], [_print_pop_context] and [_print_item]. *)
Inductive event : Type :=
  | PushEvent (title : string)
  | PopEvent
  | ItemEvent (lv : level) (text : string).

(** ** [ContextLog] and [ContextTreeLog] *)

(** The methods a tree-style sink supplies.  Each may read [self._context],
    passed as the first argument.  [_push_extra] is the code an overriding
    [_push_context] runs after [super()._push_context] ([IndentLog]); it
    receives [mayskip] and the reading of [time.time()].  The [escape]
    keyword of [_print_item] travels through [write]. *)
Module Sink.
Class TreeSink (S : Type) : Type := {
  _print_push_context : list string → string → S → S;
  _print_pop_context : list string → S → S;
  _print_item : list string → level → string → bool → S → S;
  _push_extra : list string → bool → Z → S → S;
}.
End Sink.
Export Sink.

Module ContextTreeLog.
Section Engine.
Context {S : Type} {sink : TreeSink S}.
Variable procid : option Z.

(** The object: the fields of [ContextLog] and [ContextTreeLog], the
    fields of the concrete sink in [body], and the history of the events
    rendered so far (a ghost field, never read by the code). *)
Record t : Type := Build {
  _context : list string;
  _printed_context : Z;
  body : S;
  rendered : list event;
}.

Definition __init__ (b : S) : t :=
  {| _context := []; _printed_context := 0; body := b; rendered := [] |}.

(** [ContextLog._push_context], followed by the sink's own part. *)
Definition _push_context (title : string) (mayskip : bool) (now : Z)
    (self : t) : t :=
  let ctx := _context self ++ [title] in
  {| _context := ctx;
     _printed_context := _printed_context self;
     body := _push_extra ctx mayskip now (body self);
     rendered := rendered self |}.

Definition _pop_context (self : t) : result t :=
  ctx ← list_pop (_context self);
  if Z.of_nat (length ctx) <? _printed_context self then
    Ok {| _context := ctx;
          _printed_context := _printed_context self - 1;
          body := _print_pop_context ctx (body self);
          rendered := rendered self ++ [PopEvent] |}
  else
    Ok {| _context := ctx;
          _printed_context := _printed_context self;
          body := body self;
          rendered := rendered self |}.

(** One turn of the loop of [write]. *)
Definition print_push (self : t) (title : string) : t :=
  {| _context := _context self;
     _printed_context := _printed_context self + 1;
     body := _print_push_context (_context self) title (body self);
     rendered := rendered self ++ [PushEvent title] |}.

(** The call [self._print_item(level, text, **kwargs)]. *)
Definition print_item (lv : level) (text : string) (escape : bool)
    (self : t) : t :=
  {| _context := _context self;
     _printed_context := _printed_context self;
     body := _print_item (_context self) lv text escape (body self);
     rendered := rendered self ++ [ItemEvent lv text] |}.

Definition write (lv : level) (text : string) (escape : bool) (self : t) : t :=
  if truthy procid then self
  else
    let self :=
      fold_left print_push
        (slice_list_from (_context self) (_printed_context self)) self in
    print_item lv text escape self.

(** The operations a caller performs on the sink: entering and leaving a
    [context] scope, and [write]. *)
Inductive op : Type :=
  | Push (title : string) (mayskip : bool) (now : Z)
  | Pop
  | Write (lv : level) (text : string) (escape : bool).

(** One operation.  An operation that raises leaves the object as the
    raising statement found it. *)
Definition step (self : t) (o : op) : t * option exn :=
  match o with
  | Push title mayskip now => (_push_context title mayskip now self, None)
  | Pop =>
      match _pop_context self with
      | Ok self' => (self', None)
      | Raise e => (self, Some e)
      end
  | Write lv text escape => (write lv text escape self, None)
  end.

Definition run (ops : list op) (self : t) : t :=
  fold_left (fun s o => (step s o).1) ops self.

(** The events an operation adds to the rendered history. *)
Definition emitted (self : t) (o : op) : list event :=
  drop (length (rendered self)) (rendered (step self o).1).

(** The printed prefix lies within the stack. *)
Definition prefix_in_stack (self : t) : Prop :=
  0 ≤ _printed_context self ≤ Z.of_nat (length (_context self)).

(** The entry a pop removes, the last of the stack, had been rendered: the
    stack is not empty and the index of its last entry lies below the
    printed prefix. *)
Definition top_rendered (self : t) : bool :=
  bool_decide (_context self ≠ [])
  && (Z.of_nat (length (_context self)) - 1 <? _printed_context self).

End Engine.
Arguments t S : clear implicits.
End ContextTreeLog.

(** ** [StdoutLog] *)

Module StdoutLog.

Record t : Type := Build {
  _context : list string;
  stream : string;
}.

Definition __init__ : t := {| _context := []; stream := "" |}.

Definition _push_context (title : string) (mayskip : bool) (self : t) : t :=
  {| _context := _context self ++ [title]; stream := stream self |}.

Definition _pop_context (self : t) : result t :=
  ctx ← list_pop (_context self);
  Ok {| _context := ctx; stream := stream self |}.

Definition _mkstr (lv : level) (text : option string) (self : t) : string :=
  join " > " (_context self ++ match text with Some x => [x] | None => [] end).

(** [verbose] is [config.verbose]. *)
Definition write (verbose : Z) (procid : option Z)
    (lv : level) (text : string) (endl : bool) (self : t) : t :=
  if bool_decide (lv ∉ slice_list_from LEVELS verbose) then
    let text :=
      match procid with
      | Some r => "[" +:+ str r +:+ "] " +:+ text
      | None => text
      end in
    let s := _mkstr lv (Some text) self in
    {| _context := _context self; stream := print s endl (stream self) |}
  else self.

End StdoutLog.

(** ** [HtmlLog] *)

Module HtmlLog.

(** The text written to [log.html]. *)
Record body : Type := Build { _file : string }.

(** [name="value"]. *)
Definition attr (name value : string) : string :=
  name +:+ "=" +:+ String dquote value +:+ String dquote "".

Definition _print (s : string) (self : body) : body :=
  {| _file := print s true (_file self) |}.

Definition _print_push_context (title : string) (self : body) : body :=
  _print ("<div " +:+ attr "class" "context" +:+ "><div "
          +:+ attr "class" "title" +:+ ">" +:+ html_escape title
          +:+ "</div><div " +:+ attr "class" "children" +:+ ">") self.

Definition _print_pop_context (self : body) : body :=
  _print ("</div><div " +:+ attr "class" "end" +:+ "></div></div>") self.

(** [LEVELS.index(level)]. *)
Definition level_index (lv : level) : Z :=
  match lv with
  | Error => 0 | Warning => 1 | User => 2 | Info => 3 | Debug => 4
  end.

Definition _print_item (lv : level) (text : string) (escape : bool)
    (self : body) : body :=
  let text := if escape then html_escape text else text in
  _print ("<div " +:+ attr "class" "item" +:+ " "
          +:+ attr "data-loglevel" (str (level_index lv)) +:+ ">"
          +:+ text +:+ "</div>") self.

#[global] Instance sink : TreeSink body := {|
  Sink._print_push_context _ := _print_push_context;
  Sink._print_pop_context _ := _print_pop_context;
  Sink._print_item _ := _print_item;
  Sink._push_extra _ _ _ self := self;
|}.

End HtmlLog.

(** ** [IndentLog] *)

(** The values of the dictionary [json.dump] receives from this module:
    [None], an integer, a string, a list of strings. *)
Inductive json : Type :=
  | JNull
  | JInt (n : Z)
  | JStr (s : string)
  | JStrList (l : list string).

(** What was written to a file since it was last truncated: the
    serialisation by [json.dump] of a dictionary, its keys in insertion
    order, or plain text. *)
Inductive written : Type :=
  | Dumped (fields : list (string * json))
  | Chars (s : string).

Module IndentLog.

Record body : Type := Build {
  _prefix : string;
  _progressupdate : Z;
  _progressinterval : Z;
  _logfile : string;
  _progressfile : list written;
}.

(** The sink after [__init__] and [__enter__]: both files open, empty. *)
Definition entered (progressinterval : Z) : body :=
  {| _prefix := ""; _progressupdate := 0;
     _progressinterval := progressinterval;
     _logfile := ""; _progressfile := [] |}.

Definition _print (s : string) (self : body) : body :=
  {| _prefix := _prefix self;
     _progressupdate := _progressupdate self;
     _progressinterval := _progressinterval self;
     _logfile := print s true (_logfile self);
     _progressfile := _progressfile self |}.

Definition set_prefix (prefix : string) (self : body) : body :=
  {| _prefix := prefix;
     _progressupdate := _progressupdate self;
     _progressinterval := _progressinterval self;
     _logfile := _logfile self;
     _progressfile := _progressfile self |}.

Definition set_progressupdate (v : Z) (self : body) : body :=
  {| _prefix := _prefix self;
     _progressupdate := v;
     _progressinterval := _progressinterval self;
     _logfile := _logfile self;
     _progressfile := _progressfile self |}.

Definition _print_push_context (title : string) (self : body) : body :=
  let title := remove_char carriage_return (remove_char newline title) in
  let self := _print (_prefix self +:+ "c " +:+ html_escape title) self in
  set_prefix (_prefix self +:+ " ") self.

Definition _print_pop_context (self : body) : body :=
  set_prefix (drop_last (_prefix self)) self.

Definition opt_str (o : option string) : json :=
  match o with Some x => JStr x | None => JNull end.

(** The bytes a text takes in the log file.  The file is opened as text
    with the encoding of the locale, UTF-8 here, and the newline of the
    system, one line feed here: a character below 128 takes one byte, a
    character from 128 to 255 two. *)
Fixpoint encoded_length (s : string) : Z :=
  match s with
  | EmptyString => 0
  | String c s' =>
      (if (nat_of_ascii c <? 128)%nat then 1 else 2) + encoded_length s'
  end.

(** [self._logfile.tell()], the offset in bytes of the end of the file: the
    file is flushed after every line and never read. *)
Definition tell (self : body) : Z := encoded_length (_logfile self).

Definition _print_progress (_context : list string)
    (lv text : option string) (self : body) : body :=
  {| _prefix := _prefix self;
     _progressupdate := _progressupdate self;
     _progressinterval := _progressinterval self;
     _logfile := _logfile self;
     _progressfile :=
       [Dumped [("logpos", JInt (tell self));
                ("context", JStrList _context);
                ("text", opt_str text);
                ("level", opt_str lv)];
        Chars (String newline "")] |}.

(** The loop over [text.splitlines()]: each line is printed behind the
    current [level], which becomes the continuation mark. *)
Definition print_line (acc : string * body) (line : string) : string * body :=
  let '(lv, self) := acc in
  ("|", _print (_prefix self +:+ lv +:+ " " +:+ line) self).

Definition _print_item (_context : list string)
    (lv : level) (text : string) (escape : bool) (self : body) : body :=
  let text := if escape then html_escape text else text in
  let lv := html_escape (first_char (level_name lv)) in
  let '(lv, self) := fold_left print_line (splitlines text) (lv, self) in
  let self := _print_progress _context (Some lv) (Some text) self in
  set_progressupdate 0 self.

(** The part of [_push_context] after [super()._push_context]. *)
Definition _push_extra (procid : option Z) (_context : list string)
    (mayskip : bool) (now : Z) (self : body) : body :=
  if truthy procid then self
  else if now <? _progressupdate self then self
  else
    let self := _print_progress _context None None self in
    set_progressupdate (now + _progressinterval self) self.

Definition sink (procid : option Z) : TreeSink body := {|
  Sink._print_push_context _ := _print_push_context;
  Sink._print_pop_context _ := _print_pop_context;
  Sink._print_item := _print_item;
  Sink._push_extra := _push_extra procid;
|}.

End IndentLog.

(** ** The interface of a log *)

(** What [RecordLog] and the module-level functions call on a log object.
    [context(title, mayskip)] is a generator context manager:
    [context_enter] is its code up to the [yield] and [context_exit] the
    code after it; likewise [open_enter] and [open_exit] for
    [open(filename, mode, level, exists)], which yields a file object of
    type [Stream].  [stream_write] is [f.write(data)] on such an object.
    The [now] argument is the reading of [time.time()] during the call. *)
Module Iface.
Class Log (S : Type) : Type := {
  Stream : Type;
  context_enter : string → bool → Z → S → S;
  context_exit : S → S * option exn;
  write : level → string → S → S;
  open_enter : string → string → level → string → S → S * result Stream;
  stream_write : string → Stream → S → Stream * S;
  open_exit : string → string → level → string → Stream → S → S * option exn;
}.
End Iface.
Export Iface.

(** A positional argument of a call. *)
Inductive value : Type :=
  | VStr (s : string)
  | VLevel (lv : level).

(** The call of [log.open] with the positional arguments [args].  Every
    [open] of the module takes exactly [filename, mode, level, exists]; a
    call with another argument list raises TypeError before the body of
    [open] runs. *)
Definition call_open {S} {log : Log S} (args : list value) (self : S)
  : S * result Stream :=
  match args with
  | [VStr filename; VStr mode; VLevel lv; VStr exists_] =>
      open_enter filename mode lv exists_ self
  | _ => (self, Raise TypeError)
  end.

(** [StdoutLog] as a log: [open] yields [_devnull(filename)] and writes the
    file name once the file is closed. *)
Definition StdoutLog_Log (verbose : Z) (procid : option Z)
  : Log StdoutLog.t := {|
  Stream := string;
  context_enter title mayskip _ := StdoutLog._push_context title mayskip;
  context_exit self :=
    match StdoutLog._pop_context self with
    | Ok self' => (self', None)
    | Raise e => (self, Some e)
    end;
  write lv text := StdoutLog.write verbose procid lv text true;
  open_enter filename _ _ _ self := (self, Ok filename);
  stream_write _ f self := (f, self);
  open_exit filename _ lv _ _ self :=
    (StdoutLog.write verbose procid lv filename true self, None);
|}.

(** A tree-style sink as a log.  [ContextTreeLog] leaves [open] to the
    concrete sink, so the three parts of it are taken as arguments. *)
Definition TreeLog_Log {S} {sink : TreeSink S} (procid : option Z) (F : Type)
    (tree_open_enter : string → string → level → string →
       ContextTreeLog.t S → ContextTreeLog.t S * result F)
    (tree_stream_write : string → F → ContextTreeLog.t S →
       F * ContextTreeLog.t S)
    (tree_open_exit : string → string → level → string → F →
       ContextTreeLog.t S → ContextTreeLog.t S * option exn)
  : Log (ContextTreeLog.t S) := {|
  Stream := F;
  context_enter := ContextTreeLog._push_context;
  context_exit self :=
    match ContextTreeLog._pop_context self with
    | Ok self' => (self', None)
    | Raise e => (self, Some e)
    end;
  write lv text := ContextTreeLog.write procid lv text true;
  open_enter := tree_open_enter;
  stream_write := tree_stream_write;
  open_exit := tree_open_exit;
|}.

(** ** [RecordLog] *)

Module RecordLog.

(** The entries of [_messages]: the tuples [('entercontext', title)],
    [('exitcontext',)], [('write', level, text)] and
    [('open', filename, mode, level, exists, data)]. *)
Inductive message : Type :=
  | entercontext (title : string)
  | exitcontext
  | write_ (lv : level) (text : string)
  | open_ (filename mode : string) (lv : level) (exists_ : string)
      (data : string).

Section Recorder.
(** The log that was active when the recorder was entered, which the
    recorder alone drives while it is active. *)
Context {S : Type} {log : Log S}.
Variable procid : option Z.

Record t : Type := Build {
  _messages : list message;
  _contexts : list string;
  _appended_contexts : Z;
  _old_log : S;
}.

(** The recorder after [__init__] and [__enter__], [old] being the log
    that was active. *)
Definition entered (old : S) : t :=
  {| _messages := []; _contexts := []; _appended_contexts := 0;
     _old_log := old |}.

Definition set_old_log (old : S) (self : t) : t :=
  {| _messages := _messages self; _contexts := _contexts self;
     _appended_contexts := _appended_contexts self; _old_log := old |}.

(** The loop that appends an ['entercontext'] for every context entered
    and not yet appended, and the assignment that follows it. *)
Definition append_contexts (self : t) : t :=
  {| _messages :=
       _messages self
       ++ (entercontext <$>
             slice_list_from (_contexts self) (_appended_contexts self));
     _contexts := _contexts self;
     _appended_contexts := Z.of_nat (length (_contexts self));
     _old_log := _old_log self |}.

Definition append_message (m : message) (self : t) : t :=
  {| _messages := _messages self ++ [m]; _contexts := _contexts self;
     _appended_contexts := _appended_contexts self;
     _old_log := _old_log self |}.

(** [context], up to the [yield]. *)
Definition context_enter (title : string) (mayskip : bool) (now : Z)
    (self : t) : t :=
  {| _messages := _messages self;
     _contexts := _contexts self ++ [title];
     _appended_contexts := _appended_contexts self;
     _old_log := Iface.context_enter title mayskip now (_old_log self) |}.

(** [context], after the [yield]: the scope of the old log is left, then
    the [finally] clause runs. *)
Definition context_exit (self : t) : t * option exn :=
  let '(old, raised) := Iface.context_exit (_old_log self) in
  let self := set_old_log old self in
  match list_pop (_contexts self) with
  | Raise e => (self, Some e)
  | Ok ctxs =>
      if Z.of_nat (length ctxs) <? _appended_contexts self then
        ({| _messages := _messages self ++ [exitcontext];
            _contexts := ctxs;
            _appended_contexts := _appended_contexts self - 1;
            _old_log := _old_log self |}, raised)
      else
        ({| _messages := _messages self;
            _contexts := ctxs;
            _appended_contexts := _appended_contexts self;
            _old_log := _old_log self |}, raised)
  end.

Definition write (lv : level) (text : string) (self : t) : t :=
  let self := set_old_log (Iface.write lv text (_old_log self)) self in
  if negb (truthy procid) then
    append_message (write_ lv text) (append_contexts self)
  else self.

(** The file object [open] yields, [_multistream([f, data])]: the file
    object of the old log and the text held by the in-memory [data]. *)
Definition multistream : Type := Stream * string.

(** [open], up to the [yield].  The old log's [open] is called with
    [filename, mode, level] only. *)
Definition open_enter (filename mode : string) (lv : level)
    (exists_ : string) (self : t) : t * result multistream :=
  let self := append_contexts self in
  let data := "" in
  let '(old, r) :=
    call_open [VStr filename; VStr mode; VLevel lv] (_old_log self) in
  (set_old_log old self, f ← r; Ok (f, data)).

Definition stream_write (data : string) (m : multistream) (self : t)
  : multistream * t :=
  let '(f, old) := Iface.stream_write data m.1 (_old_log self) in
  ((f, m.2 +:+ data), set_old_log old self).

(** [open], after the [yield]: the old log's file is closed, then the
    message is built from [data.getValue()], an attribute that neither
    [io.BytesIO] nor [io.StringIO] has. *)
Definition open_exit (filename mode : string) (lv : level)
    (exists_ : string) (m : multistream) (self : t) : t * option exn :=
  let '(old, raised) :=
    Iface.open_exit filename mode lv exists_ m.1 (_old_log self) in
  let self := set_old_log old self in
  match raised with
  | Some e => (self, Some e)
  | None => (self, Some AttributeError)
  end.

(** The operations of a recorded session. *)
Inductive op : Type :=
  | Enter (title : string) (mayskip : bool) (now : Z)
  | Exit
  | Write (lv : level) (text : string)
  | Open (filename mode : string) (lv : level) (exists_ : string)
      (data : list string).

(** [with log.open(...) as f: f.write(d) for d in data]. *)
Definition with_open (filename mode : string) (lv : level)
    (exists_ : string) (data : list string) (self : t) : t * option exn :=
  match open_enter filename mode lv exists_ self with
  | (self, Raise e) => (self, Some e)
  | (self, Ok m) =>
      let '(m, self) :=
        fold_left (fun acc d => stream_write d acc.1 acc.2) data (m, self) in
      open_exit filename mode lv exists_ m self
  end.

Definition step (self : t) (o : op) : t * option exn :=
  match o with
  | Enter title mayskip now => (context_enter title mayskip now self, None)
  | Exit => context_exit self
  | Write lv text => (write lv text self, None)
  | Open filename mode lv exists_ data =>
      with_open filename mode lv exists_ data self
  end.

Definition run (ops : list op) (self : t) : t :=
  fold_left (fun s o => (step s o).1) ops self.

(** The messages an operation appends to the buffer. *)
Definition appended (self : t) (o : op) : list message :=
  drop (length (_messages self)) (_messages (step self o).1).

(** The count of appended contexts lies within the list of contexts. *)
Definition appended_in_contexts (self : t) : Prop :=
  0 ≤ _appended_contexts self ≤ Z.of_nat (length (_contexts self)).

(** The context an exit removes, the last of the list, had been appended
    to the buffer. *)
Definition top_appended (self : t) : bool :=
  bool_decide (_contexts self ≠ [])
  && (Z.of_nat (length (_contexts self)) - 1 <? _appended_contexts self).

End Recorder.
Arguments t S : clear implicits.

Section Replay.
(** The log that is active when [replay] is called. *)
Context {T : Type} {log : Log T}.

(** The loop of [replay] from the [i]-th message on.  [contexts] is the
    local list of entered context managers, each remembered by its
    title; [clock i] is the reading of [time.time()] while the [i]-th
    message is replayed.  The list is returned as the loop leaves it. *)
Fixpoint replay_from (clock : nat → Z) (i : nat) (messages : list message)
    (contexts : list string) (current : T)
  : list string * T * option exn :=
  match messages with
  | [] => (contexts, current, None)
  | entercontext title :: rest =>
      let current := Iface.context_enter title false (clock i) current in
      replay_from clock (S i) rest (contexts ++ [title]) current
  | exitcontext :: rest =>
      match list_pop contexts with
      | Raise e => (contexts, current, Some e)
      | Ok popped =>
          match Iface.context_exit current with
          | (current, Some e) => (popped, current, Some e)
          | (current, None) => replay_from clock (S i) rest popped current
          end
      end
  | write_ lv text :: rest =>
      replay_from clock (S i) rest contexts (Iface.write lv text current)
  | open_ filename mode lv exists_ data :: rest =>
      match Iface.open_enter filename mode lv exists_ current with
      | (current, Raise e) => (contexts, current, Some e)
      | (current, Ok f) =>
          let '(f, current) := Iface.stream_write data f current in
          match Iface.open_exit filename mode lv exists_ f current with
          | (current, Some e) => (contexts, current, Some e)
          | (current, None) => replay_from clock (S i) rest contexts current
          end
      end
  end.

(** What becomes of the context managers that are still in the local list
    when [replay] returns: the list is released, and CPython closes the
    generator of each manager that is still entered, which runs the
    [finally] of its [context], the exit of a scope of the log; what that
    raises is reported on the side and dropped.  Every manager exits a scope
    of the same log, so that the log's own stack tells which scope goes. *)
Fixpoint finalize (contexts : list string) (current : T) : T :=
  match contexts with
  | [] => current
  | _ :: rest => finalize rest (Iface.context_exit current).1
  end.

(** [replay].  When the loop raises, the exception holds on to the frame
    and its list: the log is returned as the raising statement left it. *)
Definition replay {S} (clock : nat → Z) (self : t S) (current : T)
  : T * option exn :=
  match replay_from clock 0 (_messages self) [] current with
  | (contexts, current, None) => (finalize contexts current, None)
  | (_, current, Some e) => (current, Some e)
  end.

End Replay.

End RecordLog.

(** ** The active log: [Log.__enter__], [Log.__exit__], [_current_log] *)

Module Registry.

(** Log objects are told apart by a number. *)
Abbreviation oid := nat.

(** The class of an escaping exception, as [__exit__] tells them apart. *)
Inductive exc_type : Type :=
  | KeyboardInterrupt
  | SystemExit
  | BdbQuit
  | OtherException (name : string).

#[global] Instance exc_type_eq_dec : EqDecision exc_type.
Proof. solve_decision. Defined.

(** What a method returns to the [with] statement. *)
Inductive returned : Type :=
  | PyNone
  | PyBool (b : bool).

(** The [with] statement swallows the exception when [__exit__] returns
    a true value. *)
Definition swallows (r : returned) : bool :=
  match r with PyNone => false | PyBool b => b end.

Section Objects.
(** The exception value and the traceback are opaque;
    [format_exception] is [traceback.format_exception] with its lines
    joined, which may itself raise. *)
Variables Value Traceback : Type.
Variable format_exception : exc_type → Value → Traceback → result string.
Variable str_value : Value → string.
Variable str_exn : exn → string.

Definition exc_info : Type := exc_type * Value * Traceback.


(** A log object: the fields of its class in [state], the methods of its
    class that [__exit__] calls, the callbacks registered on its
    [ExitStack], and the attribute [_old_log], which [__enter__] sets and
    [__exit__] deletes ([None] when the object has no such attribute). *)
Record object : Type := Object {
  St : Type;
  state : St;
  obj_write : level → string → St → St;
  obj_write_post_mortem : exc_info → St → St;
  _exit_callbacks : list (St → St);
  _old_log : option (option oid);
}.

(** [Log.write_post_mortem], for a class that does not override it. *)
Definition write_post_mortem {St} (write : level → string → St → St)
    (exc : exc_info) (self : St) : St :=
  let '(etype, value, tb) := exc in
  let msg :=
    match format_exception etype value tb with
    | Ok m => m
    | Raise e => str_value value +:+ " (traceback failed: " +:+ str_exn e +:+ ")"
    end in
  write Error msg self.

(** The module's global and the log objects of the program. *)
Record world : Type := World {
  _current_log : option oid;
  objects : oid → object;
}.

Definition set_object (self : oid) (o : object) (w : world) : world :=
  {| _current_log := _current_log w;
     objects := <[self := o]> (objects w) |}.

(** The object [o] with [_old_log] set to [saved]. *)
Definition activated (o : object) (saved : option oid) : object :=
  {| St := St o; state := state o;
     obj_write := obj_write o;
     obj_write_post_mortem := obj_write_post_mortem o;
     _exit_callbacks := _exit_callbacks o;
     _old_log := Some saved |}.

Definition __enter__ (self : oid) (w : world) : world * result oid :=
  let o := objects w self in
  match _old_log o with
  | Some _ =>
      (w, Raise (RuntimeError "This context manager is not reentrant."))
  | None =>
      ({| _current_log := Some self;
          objects := <[self := activated o (_current_log w)]> (objects w) |},
       Ok self)
  end.

(** [ExitStack.__exit__] on the state of the object: the callbacks run
    last registered first. *)
Definition close {St} (callbacks : list (St → St)) (self : St) : St :=
  fold_right (fun cb s => cb s) self callbacks.

Definition fatal (etype : exc_type) : bool :=
  bool_decide (etype ∈ [KeyboardInterrupt; SystemExit; BdbQuit]).

(** The two branches of [__exit__] on the escaping exception. *)
Definition report (o : object) (exc : option exc_info) : St o :=
  match exc with
  | Some (etype, value, tb) =>
      if fatal etype then obj_write o Error "killed by user" (state o)
      else obj_write_post_mortem o (etype, value, tb) (state o)
  | None => state o
  end.

(** The object [o] once [__exit__] is through: its state is [s], the
    attribute [_old_log] is deleted and the exit stack is empty. *)
Definition released (o : object) (s : St o) : object :=
  {| St := St o; state := s;
     obj_write := obj_write o;
     obj_write_post_mortem := obj_write_post_mortem o;
     _exit_callbacks := [];
     _old_log := None |}.

Definition __exit__ (self : oid) (exc : option exc_info) (w : world)
  : world * result returned :=
  let o := objects w self in
  match _old_log o with
  | None =>
      (w, Raise (RuntimeError "This context manager is not yet entered."))
  | Some old =>
      let s := report o exc in
      let s := close (_exit_callbacks o) s in
      ({| _current_log := old;
          objects := <[self := released o s]> (objects w) |}, Ok PyNone)
  end.

(** [_print(level, text)], the module-level [write]. *)
Definition _print (lv : level) (text : string) (w : world)
  : world * option exn :=
  match _current_log w with
  | None => (w, Some AttributeError)
  | Some cur =>
      let o := objects w cur in
      (set_object cur
         {| St := St o; state := obj_write o lv text (state o);
            obj_write := obj_write o;
            obj_write_post_mortem := obj_write_post_mortem o;
            _exit_callbacks := _exit_callbacks o;
            _old_log := _old_log o |} w, None)
  end.

(** A [StdoutLog()] that was not entered yet. *)
Definition new_StdoutLog (verbose : Z) (procid : option Z) : object :=
  {| St := StdoutLog.t; state := StdoutLog.__init__;
     obj_write lv text := StdoutLog.write verbose procid lv text true;
     obj_write_post_mortem :=
       write_post_mortem
         (fun lv text => StdoutLog.write verbose procid lv text true);
     _exit_callbacks := [];
     _old_log := None |}.

(** The object the module creates while it is imported. *)
Definition default_log : oid := 0%nat.

(** The module after its import: [_current_log = None], then
    [StdoutLog().__enter__()].  [others] are the log objects the program
    creates later on, none of them entered. *)
Definition imported (verbose : Z) (procid : option Z)
    (others : oid → object) : world :=
  (__enter__ default_log
     {| _current_log := None;
        objects := <[default_log := new_StdoutLog verbose procid]> others |}).1.

(** The activations and releases a program performs. *)
Inductive op : Type :=
  | Activate (self : oid)
  | Release (self : oid) (exc : option exc_info).

Definition step (w : world) (o : op) : world :=
  match o with
  | Activate self => (__enter__ self w).1
  | Release self exc => (__exit__ self exc w).1
  end.

Definition run (ops : list op) (w : world) : world := fold_left step ops w.

Definition releases (self : oid) (o : op) : Prop :=
  match o with
  | Release self' _ => self' = self
  | Activate _ => False
  end.

Definition unentered (o : object) : Prop := _old_log o = None.

(** The state of the registry in a program that never releases the default
    log: some log is active, the default log is active with no predecessor,
    and every other active object has saved a pointer to some log. *)
Definition well_formed (w : world) : Prop :=
  is_Some (_current_log w) ∧
  _old_log (objects w default_log) = Some None ∧
  ∀ self old, self ≠ default_log →
    _old_log (objects w self) = Some old → is_Some old.

End Objects.

Arguments object : clear implicits.
Arguments world : clear implicits.
Arguments op : clear implicits.
Arguments _current_log {Value Traceback} w.
Arguments objects {Value Traceback} w self.
Arguments _old_log {Value Traceback} o.
Arguments state {Value Traceback} o.
Arguments St {Value Traceback} o.
Arguments obj_write {Value Traceback} o lv text self.
Arguments obj_write_post_mortem {Value Traceback} o exc self.
Arguments _exit_callbacks {Value Traceback} o.
Arguments released {Value Traceback} o s.
Arguments activated {Value Traceback} o saved.
Arguments __enter__ {Value Traceback} self w.
Arguments __exit__ {Value Traceback} self exc w.
Arguments _print {Value Traceback} lv text w.
Arguments step {Value Traceback} w o.
Arguments run {Value Traceback} ops w.
Arguments releases {Value Traceback} self o.
Arguments unentered {Value Traceback} o.
Arguments well_formed {Value Traceback} w.
Arguments Activate {Value Traceback} self.
Arguments Release {Value Traceback} self exc.
Arguments report {Value Traceback} o exc.
Arguments set_object {Value Traceback} self o w.
Arguments write_post_mortem {Value Traceback} format_exception str_value
  str_exn {St} write exc self.
Arguments new_StdoutLog {Value Traceback} format_exception str_value str_exn
  verbose procid.
Arguments imported {Value Traceback} format_exception str_value str_exn
  verbose procid others.
Arguments fatal etype : simpl never.

(** A world to try the theorems on: the imported module, the exception
    value and the traceback reduced to nothing, every other log object a
    fresh [StdoutLog]. *)
Definition example_world : world unit unit :=
  imported (fun _ _ _ => Ok "traceback") (fun _ => "") (fun _ => "") 4 None
    (fun _ => new_StdoutLog (fun _ _ _ => Ok "traceback")
                (fun _ => "") (fun _ => "") 4 None).
End Registry.

(** ** The active log and [TeeLog]: log objects on an exit stack *)

(** The exit stack of a concrete sink holds callbacks and files, which act
    on the sink itself; that is the registry above.  The exit stack of a
    [TeeLog] holds the log objects it entered, whose [__exit__] acts on the
    registry.  Here the objects are of either kind.  The calls of one log
    object on another are counted by [fuel]: [None] stands for a call that is
    still running when the fuel is spent. *)
Module Guards.

Section Objects.
Variables Value Traceback : Type.
Variable format_exception :
  Registry.exc_type → Value → Traceback → result string.
Variable str_value : Value → string.
Variable str_exn : exn → string.
(** What [sys.exc_info()] gives for an exception that the module raises
    while an exit stack unwinds: the name of its class, none of the three
    that [__exit__] takes for an interrupt, the value and the traceback. *)
Variable caught : exn → string * Value * Traceback.

Abbreviation oid := Registry.oid.
Abbreviation exc_info := (Registry.exc_info Value Traceback).

(** A log object: a concrete sink, as in the registry above, or a
    [TeeLog] with its tuple [logs], the log objects on its exit stack, first
    entered first, and its attribute [_old_log]. *)
Inductive object : Type :=
  | Sink (o : Registry.object Value Traceback)
  | Tee (logs : list oid) (_exit_callbacks : list oid)
        (_old_log : option (option oid)).

Record world : Type := World {
  _current_log : option oid;
  objects : oid → object;
}.

Definition set_object (self : oid) (o : object) (w : world) : world :=
  {| _current_log := _current_log w;
     objects := <[self := o]> (objects w) |}.

Definition old_log (o : object) : option (option oid) :=
  match o with
  | Sink o => Registry._old_log o
  | Tee _ _ old => old
  end.

(** The sink [o] with its fields set to [s]. *)
Definition wrote (o : Registry.object Value Traceback) (s : Registry.St o)
  : Registry.object Value Traceback :=
  {| Registry.St := Registry.St o; Registry.state := s;
     Registry.obj_write := Registry.obj_write o;
     Registry.obj_write_post_mortem := Registry.obj_write_post_mortem o;
     Registry._exit_callbacks := Registry._exit_callbacks o;
     Registry._old_log := Registry._old_log o |}.

(** The object with the attribute [_old_log] set to [old], or deleted. *)
Definition set_old_log (old : option (option oid)) (o : object) : object :=
  match o with
  | Sink o =>
      Sink {| Registry.St := Registry.St o; Registry.state := Registry.state o;
              Registry.obj_write := Registry.obj_write o;
              Registry.obj_write_post_mortem := Registry.obj_write_post_mortem o;
              Registry._exit_callbacks := Registry._exit_callbacks o;
              Registry._old_log := old |}
  | Tee logs stack _ => Tee logs stack old
  end.

(** The exit stack of a [TeeLog] set to [stack]. *)
Definition set_stack (self : oid) (stack : list oid) (w : world) : world :=
  match objects w self with
  | Tee logs _ old => set_object self (Tee logs stack old) w
  | Sink _ => w
  end.

(** [self.write(level, text)]: the method of the sink, or [TeeLog.write],
    which calls [write] on each of [logs] in turn. *)
Fixpoint write (fuel : nat) (self : oid) (lv : level) (text : string)
    (w : world) : option world :=
  match fuel with
  | O => None
  | S fuel =>
      match objects w self with
      | Sink o =>
          Some (set_object self
                  (Sink (wrote o (Registry.obj_write o lv text
                                    (Registry.state o)))) w)
      | Tee logs _ _ =>
          fold_left (fun acc log => w ← acc; write fuel log lv text w)
            logs (Some w)
      end
  end.

(** [self.write_post_mortem(etype, value, tb)]: the method of the sink,
    which may override that of [Log]; [TeeLog] has that of [Log], which
    writes the formatted traceback at level error. *)
Definition write_post_mortem (fuel : nat) (self : oid) (exc : exc_info)
    (w : world) : option world :=
  match objects w self with
  | Sink o =>
      Some (set_object self
              (Sink (wrote o (Registry.obj_write_post_mortem o exc
                                (Registry.state o)))) w)
  | Tee _ _ _ =>
      Registry.write_post_mortem format_exception str_value str_exn
        (fun lv text acc => w ← acc; write fuel self lv text w)
        exc (Some w)
  end.

(** [Log.__enter__]. *)
Definition enter_log (self : oid) (w : world) : world * result oid :=
  match old_log (objects w self) with
  | Some _ =>
      (w, Raise (RuntimeError "This context manager is not reentrant."))
  | None =>
      ({| _current_log := Some self;
          objects :=
            <[self := set_old_log (Some (_current_log w)) (objects w self)]>
              (objects w) |},
       Ok self)
  end.

(** The loop of [TeeLog.__enter__]: [self.enter_context(log)] enters [log]
    and then puts its [__exit__] on the exit stack of [self].  [enter] is
    [__enter__] as the class of [log] has it. *)
Fixpoint enter_contexts
    (enter : oid → world → option (world * result oid))
    (self : oid) (logs : list oid) (w : world)
  : option (world * option exn) :=
  match logs with
  | [] => Some (w, None)
  | log :: rest =>
      match enter log w with
      | None => None
      | Some (w, Raise e) => Some (w, Some e)
      | Some (w, Ok _) =>
          let w :=
            match objects w self with
            | Tee logs stack old =>
                set_object self (Tee logs (stack ++ [log]) old) w
            | Sink _ => w
            end in
          enter_contexts enter self rest w
      end
  end.

(** [self.__enter__()]: [Log.__enter__] for a sink, [TeeLog.__enter__] for
    a [TeeLog]. *)
Fixpoint __enter__ (fuel : nat) (self : oid) (w : world)
  : option (world * result oid) :=
  match fuel with
  | O => None
  | S fuel =>
      match objects w self with
      | Sink _ => Some (enter_log self w)
      | Tee logs _ _ =>
          match enter_contexts (__enter__ fuel) self logs w with
          | None => None
          | Some (w, Some e) => Some (w, Raise e)
          | Some (w, None) => Some (enter_log self w)
          end
      end
  end.

(** The loop of [ExitStack.__exit__] on the log objects of the exit stack,
    [stack] being what is left of it, last entered first.  An [__exit__]
    that returns a true value swallows the exception for those that follow;
    one that raises replaces it, and the last one raised is raised in the
    end.  [exit] is [__exit__]. *)
Fixpoint unwind
    (exit : oid → option exc_info → world → option (world * result Registry.returned))
    (self : oid) (stack : list oid) (exc : option exc_info)
    (pending : option exn) (w : world) : option (world * option exn) :=
  match stack with
  | [] => Some (w, pending)
  | log :: rest =>
      let w := set_stack self (rev rest) w in
      match exit log exc w with
      | None => None
      | Some (w, Ok r) =>
          if Registry.swallows r then unwind exit self rest None None w
          else unwind exit self rest exc pending w
      | Some (w, Raise e) =>
          let '(name, value, tb) := caught e in
          unwind exit self rest
            (Some (Registry.OtherException name, value, tb)) (Some e) w
      end
  end.

(** [Log.__exit__], the method of every log object. *)
Fixpoint __exit__ (fuel : nat) (self : oid) (exc : option exc_info)
    (w : world) : option (world * result Registry.returned) :=
  match fuel with
  | O => None
  | S fuel =>
      match old_log (objects w self) with
      | None =>
          Some (w, Raise (RuntimeError "This context manager is not yet entered."))
      | Some old =>
          reported ←
            match exc with
            | Some (etype, value, tb) =>
                if Registry.fatal etype
                then write fuel self Error "killed by user" w
                else write_post_mortem fuel self (etype, value, tb) w
            | None => Some w
            end;
          let w :=
            {| _current_log := old;
               objects :=
                 <[self := set_old_log None (objects reported self)]>
                   (objects reported) |} in
          match objects w self with
          | Sink o =>
              Some (set_object self
                      (Sink (Registry.released o
                               (Registry.close (Registry._exit_callbacks o)
                                  (Registry.state o)))) w,
                    Ok Registry.PyNone)
          | Tee _ stack _ =>
              unwound ← unwind (__exit__ fuel) self (rev stack) exc None w;
              match unwound with
              | (w, Some e) => Some (w, Raise e)
              | (w, None) => Some (w, Ok Registry.PyNone)
              end
          end
      end
  end.

End Objects.

Arguments object : clear implicits.
Arguments world : clear implicits.
Arguments Sink {Value Traceback} o.
Arguments Tee {Value Traceback} logs _exit_callbacks _old_log.
Arguments World {Value Traceback} _current_log objects.
Arguments _current_log {Value Traceback} w.
Arguments objects {Value Traceback} w self.
Arguments set_object {Value Traceback} self o w.
Arguments old_log {Value Traceback} o.
Arguments wrote {Value Traceback} o s.
Arguments set_old_log {Value Traceback} old o.
Arguments set_stack {Value Traceback} self stack w.
Arguments write {Value Traceback} fuel self lv text w.
Arguments write_post_mortem {Value Traceback} format_exception str_value
  str_exn fuel self exc w.
Arguments enter_log {Value Traceback} self w.
Arguments enter_contexts {Value Traceback} enter self logs w.
Arguments __enter__ {Value Traceback} fuel self w.
Arguments unwind {Value Traceback} caught exit self stack exc pending w.
Arguments __exit__ {Value Traceback} format_exception str_value str_exn
  caught fuel self exc w.

(** A world to try the theorems on: a [StdoutLog] that is the active log,
    as after the import; two more that are not entered; a [TeeLog] over
    those two; every other object a [StdoutLog] that is not entered. *)
Definition example_world : world unit unit :=
  let stdout :=
    Registry.new_StdoutLog (fun _ _ _ => Ok "traceback")
      (fun _ => "") (fun _ => "") 4 None in
  {| _current_log := Some 0%nat;
     objects :=
       <[0%nat := Sink (Registry.activated stdout None)]>
         (<[3%nat := Tee [1%nat; 2%nat] [] None]> (fun _ => Sink stdout)) |}.

End Guards.

(** ** Sessions *)

(** The calls of a session that opens no file: entering and leaving a
    [context] scope, and [write] with its default arguments. *)
Inductive call : Type :=
  | ContextEnter (title : string) (mayskip : bool) (now : Z)
  | ContextExit
  | WriteText (lv : level) (text : string).

(** One call on a log; a call that raises leaves the log as the raising
    statement found it. *)
Definition perform {S} {log : Log S} (self : S) (c : call) : S :=
  match c with
  | ContextEnter title mayskip now => context_enter title mayskip now self
  | ContextExit => (context_exit self).1
  | WriteText lv text => write lv text self
  end.

(** The same call as an operation of the recorder and of a tree-style
    sink. *)
Definition record_op (c : call) : RecordLog.op :=
  match c with
  | ContextEnter title mayskip now => RecordLog.Enter title mayskip now
  | ContextExit => RecordLog.Exit
  | WriteText lv text => RecordLog.Write lv text
  end.

Definition tree_op (c : call) : ContextTreeLog.op :=
  match c with
  | ContextEnter title mayskip now => ContextTreeLog.Push title mayskip now
  | ContextExit => ContextTreeLog.Pop
  | WriteText lv text => ContextTreeLog.Write lv text true
  end.

(** The contexts a rendered history leaves open: a push event opens its
    title, a pop event closes the title opened last.  [None] when a pop
    event finds nothing to close. *)
Fixpoint open_titles_from (events : list event) (stack : list string)
  : option (list string) :=
  match events with
  | [] => Some stack
  | PushEvent title :: rest => open_titles_from rest (stack ++ [title])
  | PopEvent :: rest =>
      match stack with
      | [] => None
      | _ => open_titles_from rest (removelast stack)
      end
  | ItemEvent _ _ :: rest => open_titles_from rest stack
  end.
Definition open_titles (events : list event) : option (list string) :=
  open_titles_from events [].

(** The printed prefix lies within the stack, and the contexts the
    rendered history leaves open are the part of the stack below it. *)
Definition nested {B} (self : ContextTreeLog.t B) : Prop :=
  ContextTreeLog.prefix_in_stack self ∧
  open_titles (ContextTreeLog.rendered self)
    = Some (take (Z.to_nat (ContextTreeLog._printed_context self))
              (ContextTreeLog._context self)).

(** [n] spaces. *)
Fixpoint spaces (n : nat) : string :=
  match n with
  | O => ""
  | S n' => String " " (spaces n')
  end.

(** The log file of [new] is the log file of [old] with something written
    behind it. *)
Definition extends (old new : IndentLog.body) : Prop :=
  ∃ suffix, IndentLog._logfile new = IndentLog._logfile old +:+ suffix.

(** The state of an [IndentLog] between two operations: the prefix is as
    many spaces as contexts are printed; the progress file is empty as long
    as the log file is, and is one dictionary that points at the end of the
    log file afterwards. *)
Definition tidy (self : ContextTreeLog.t IndentLog.body) : Prop :=
  0 ≤ ContextTreeLog._printed_context self ∧
  IndentLog._prefix (ContextTreeLog.body self)
    = spaces (Z.to_nat (ContextTreeLog._printed_context self)) ∧
  ((IndentLog._progressfile (ContextTreeLog.body self) = [] ∧
    IndentLog._logfile (ContextTreeLog.body self) = "") ∨
   ∃ ctx shown mark,
     IndentLog._progressfile (ContextTreeLog.body self)
       = [Dumped [("logpos", JInt (IndentLog.tell (ContextTreeLog.body self)));
                  ("context", JStrList ctx);
                  ("text", shown); ("level", mark)];
          Chars (String newline "")]).

(** How a recorder [R], the tree-style sink [D] that ran the same session
    directly and the sink [T] on which the buffer of [R] was replayed stand
    to each other, [held] being the contexts the replay holds: the recorder
    follows the stack and the printed prefix of [D]; the replay has entered
    the printed part of the stack, has all of it printed, and has rendered
    what [D] has; the two sinks have the same fields when a push does
    nothing beyond the stack. *)
Definition replayed_like {B} {sink : TreeSink B}
    (R : RecordLog.t (ContextTreeLog.t B)) (D T : ContextTreeLog.t B)
    (held : list string) : Prop :=
  ContextTreeLog.prefix_in_stack D ∧
  RecordLog._contexts R = ContextTreeLog._context D ∧
  RecordLog._appended_contexts R = ContextTreeLog._printed_context D ∧
  held = take (Z.to_nat (ContextTreeLog._printed_context D))
           (ContextTreeLog._context D) ∧
  ContextTreeLog._context T = held ∧
  ContextTreeLog._printed_context T = ContextTreeLog._printed_context D ∧
  ContextTreeLog.rendered T = ContextTreeLog.rendered D ∧
  ((∀ ctx mayskip now b, _push_extra ctx mayskip now b = b) →
   ContextTreeLog.body T = ContextTreeLog.body D).

(** ** [RichOutputLog] *)

Module RichOutputLog.

Definition ESC : ascii := ascii_of_nat 27.

(** The separator of the context trail, a middle dot between two
    spaces. *)
Definition separator : string := String " " (String (ascii_of_nat 183) " ").

(** The two timing fields hold what [time.time()] gives and what is added
    to it, binary64 floats.  The integer [0] that [__init__] and [_mkstr]
    store is the float zero here: Python compares a float with it as with
    that float. *)
Record t : Type := Build {
  _context : list string;
  stream : string;
  _progressupdate : float;
  _progressinterval : float;
}.

(** [progressinterval] is the interval as resolved from the argument and
    the configuration. *)
Definition __init__ (progressinterval : float) : t :=
  {| _context := []; stream := ""; _progressupdate := 0%float;
     _progressinterval := progressinterval |}.

(** [cmap], for the levels: the colour and the weight of a level. *)
Definition cmap (lv : level) : option (Z * Z) :=
  match lv with
  | Error => Some (1, 1)
  | Warning => Some (1, 0)
  | User => Some (3, 0)
  | Info | Debug => None
  end.

Definition set_progressupdate (v : float) (self : t) : t :=
  {| _context := _context self; stream := stream self;
     _progressupdate := v; _progressinterval := _progressinterval self |}.

(** [_mkstr(level, text)]; [lv] is [None] for the tag ['progress'] of a
    progress line, which is no key of [cmap].  With a text the timestamp of
    the next progress line is reset. *)
Definition _mkstr (lv : option level) (text : option string) (self : t)
  : string * t :=
  let '(string, n, self) :=
    match text with
    | Some x =>
        let string := join separator (_context self ++ [x]) in
        (string,
         Z.of_nat (String.length string) - Z.of_nat (String.length x),
         set_progressupdate 0%float self)
    | None =>
        let string := join separator (_context self) in
        (string, Z.of_nat (String.length string), self)
    end in
  let dim := String ESC "[K" +:+ String ESC "[1;30m" +:+ slice_to string n in
  match lv ≫= cmap with
  | None => (dim +:+ String ESC "[0m" +:+ slice_from string n, self)
  | Some (colorid, boldid) =>
      (dim +:+ String ESC "[" +:+ str boldid +:+ ";3" +:+ str colorid +:+ "m"
       +:+ slice_from string n +:+ String ESC "[0m", self)
  end.

(** [StdoutLog.write], which this class inherits, with the [_mkstr] of this
    class. *)
Definition write (verbose : Z) (procid : option Z)
    (lv : level) (text : string) (endl : bool) (self : t) : t :=
  if bool_decide (lv ∉ slice_list_from LEVELS verbose) then
    let text :=
      match procid with
      | Some r => "[" +:+ str r +:+ "] " +:+ text
      | None => text
      end in
    let '(s, self) := _mkstr (Some lv) (Some text) self in
    {| _context := _context self; stream := print s endl (stream self);
       _progressupdate := _progressupdate self;
       _progressinterval := _progressinterval self |}
  else self.

Definition _push_context (procid : option Z) (title : string)
    (mayskip : bool) (now : float) (self : t) : t :=
  let self :=
    {| _context := _context self ++ [title]; stream := stream self;
       _progressupdate := _progressupdate self;
       _progressinterval := _progressinterval self |} in
  if truthy procid then self
  else if negb mayskip || (_progressupdate self <=? now)%float then
    let self :=
      set_progressupdate (now + _progressinterval self)%float self in
    let '(s, self) := _mkstr None None self in
    {| _context := _context self;
       stream := stream self +:+ s +:+ String carriage_return "";
       _progressupdate := _progressupdate self;
       _progressinterval := _progressinterval self |}
  else self.

(** The text of the progress line of a context, for the statements below: the whole trail, dimmed, ended by a
    carriage return, so that what is printed next overwrites it. *)
Definition progress_line (self : t) (title : string) : string :=
  String ESC "[K" +:+ String ESC "[1;30m"
  +:+ join separator (_context self ++ [title])
  +:+ String ESC "[0m" +:+ String carriage_return "".

End RichOutputLog.

(** ** [TeeLog] *)

Module TeeLog.
Section Tee.
(** The logs of the tee are of one type (a sum type when their classes
    differ). *)
Context {L : Type} {log : Log L}.

(** [context], up to the [yield]: the context of every log is entered in
    turn.  [clock k] is the reading of [time.time()] the [k]-th log takes,
    [k] counting from [first]. *)
Fixpoint context_enter (title : string) (mayskip : bool) (clock : nat → Z)
    (first : nat) (logs : list L) : list L :=
  match logs with
  | [] => []
  | one :: rest =>
      Iface.context_enter title mayskip (clock first) one
      :: context_enter title mayskip clock (S first) rest
  end.

(** [context], after the [yield]: [ExitStack.__exit__] leaves the contexts
    last entered first, goes on when one of them raises, and raises in the
    end the exception raised last. *)
Fixpoint context_exit (logs : list L) : list L * option exn :=
  match logs with
  | [] => ([], None)
  | one :: rest =>
      let '(rest, pending) := context_exit rest in
      let '(one, raised) := Iface.context_exit one in
      (one :: rest,
       match raised with Some e => Some e | None => pending end)
  end.

Fixpoint write (lv : level) (text : string) (logs : list L) : list L :=
  match logs with
  | [] => []
  | one :: rest => Iface.write lv text one :: write lv text rest
  end.

(** The calls of a session on the tee. *)
Inductive op : Type :=
  | Enter (title : string) (mayskip : bool) (clock : nat → Z)
  | Exit
  | Write (lv : level) (text : string).

Definition step (logs : list L) (o : op) : list L * option exn :=
  match o with
  | Enter title mayskip clock =>
      (context_enter title mayskip clock 0 logs, None)
  | Exit => context_exit logs
  | Write lv text => (write lv text logs, None)
  end.

Definition run (ops : list op) (logs : list L) : list L :=
  fold_left (fun s o => (step s o).1) ops logs.

(** The call the [k]-th log receives for an operation of the tee. *)
Definition call_of (k : nat) (o : op) : call :=
  match o with
  | Enter title mayskip clock => ContextEnter title mayskip (clock k)
  | Exit => ContextExit
  | Write lv text => WriteText lv text
  end.

End Tee.
End TeeLog.

(** * Properties *)

(** ** File naming *)

Module FileNamingFacts.
Import FileNaming.

Lemma contains_String c a s :
  contains c (String a s) = false ↔ a ≠ c ∧ contains c s = false.
Proof.
  simpl. destruct (Ascii.eqb_spec a c) as [->|Hne]; split.
  - discriminate.
  - intros [Hne _]. congruence.
  - auto.
  - intros [_ H]. exact H.
Qed.

Lemma no_braces_String a s :
  no_braces (String a s) ↔ (a ≠ lbrace ∧ a ≠ rbrace) ∧ no_braces s.
Proof. unfold no_braces. rewrite !contains_String. tauto. Qed.

Lemma format_from_literal c t used arg :
  c ≠ lbrace → c ≠ rbrace →
  format_from (String c t) used arg = String c <$> format_from t used arg.
Proof.
  intros Hl Hr. cbn [format_from].
  rewrite (proj2 (Ascii.eqb_neq c lbrace) Hl), (proj2 (Ascii.eqb_neq c rbrace) Hr).
  reflexivity.
Qed.

Lemma format_from_field t arg :
  format_from (String lbrace (String rbrace t)) false arg
    = String.append arg <$> format_from t true arg.
Proof. reflexivity. Qed.

Lemma format_from_plain t used arg :
  no_braces t → format_from t used arg = Ok t.
Proof.
  induction t as [|c t IH]; intros Hnb; [reflexivity|].
  apply no_braces_String in Hnb as [[Hl Hr] Hnb].
  rewrite format_from_literal, (IH Hnb) by done. reflexivity.
Qed.

Lemma format_count_plain root ext n :
  no_braces root → no_braces ext →
  format_count root ext n = Ok (root +:+ "-" +:+ str n +:+ ext).
Proof.
  intros Hroot Hext. unfold format_count. cbn [join].
  generalize (str n) as arg. intros arg.
  induction root as [|c root IH].
  - change (format_from (String "-" (String lbrace (String rbrace ext))) false arg
            = Ok (String "-" (arg +:+ ext))).
    rewrite format_from_literal, format_from_field by done.
    rewrite (format_from_plain ext true arg Hext). reflexivity.
  - apply no_braces_String in Hroot as [[Hl Hr] Hroot].
    change (format_from (String c (root +:+ "-{}" +:+ ext)) false arg
            = Ok (String c (root +:+ "-" +:+ arg +:+ ext))).
    rewrite format_from_literal, (IH Hroot) by done. reflexivity.
Qed.

Lemma contains_substring c s : ∀ i n,
  contains c s = false → contains c (String.substring i n s) = false.
Proof.
  induction s as [|a s IH]; intros i n H.
  - destruct i, n; reflexivity.
  - apply contains_String in H as [Hne H].
    destruct i as [|i]; destruct n as [|n]; cbn [String.substring]; auto.
    apply contains_String. auto.
Qed.

Lemma no_braces_splitext p :
  no_braces p → no_braces (splitext p).1 ∧ no_braces (splitext p).2.
Proof.
  intros [Hl Hr]. unfold splitext, slice_to, slice_from.
  destruct (_ && _); cbn [fst snd]; unfold no_braces;
    auto using contains_substring.
Qed.

Lemma length_append s t :
  String.length (s +:+ t) = (String.length s + String.length t)%nat.
Proof. induction s as [|a s IH]; cbn; [done|]. by rewrite IH. Qed.

Lemma append_inj_r s t1 t2 : t1 +:+ s = t2 +:+ s → t1 = t2.
Proof.
  revert t2. induction t1 as [|a t1 IH]; intros [|b t2] H; cbn in H.
  - reflexivity.
  - exfalso. apply (f_equal String.length) in H.
    cbn in H. rewrite length_append in H. lia.
  - exfalso. apply (f_equal String.length) in H.
    cbn in H. rewrite length_append in H. lia.
  - injection H as -> H. f_equal. auto.
Qed.

Lemma numbered_inj filename : Inj (=) (=) (numbered filename).
Proof.
  intros n m. unfold numbered. destruct (splitext filename) as [root ext].
  intros H. apply String.app_inj in H. injection H as H.
  apply append_inj_r in H. apply (inj pretty) in H. exact H.
Qed.

Section Search.
Variables (root ext : string) (f : Z → string).
Hypothesis format_f : ∀ n, format_count root ext n = Ok (f n).
Hypothesis f_inj : Inj (=) (=) f.

Lemma search_agree budget : ∀ (L L' : gset string) n,
  (∀ k, n ≤ k → f k ∈ L ↔ f k ∈ L') →
  search L root ext n budget = search L' root ext n budget.
Proof.
  induction budget as [|b IH]; intros L L' n Hagree; [reflexivity|].
  cbn [search]. rewrite format_f.
  destruct (decide (f n ∈ L)) as [Hin|Hout];
    destruct (decide (f n ∈ L')) as [Hin'|Hout'].
  - apply IH. intros k Hk. apply Hagree. lia.
  - exfalso. apply Hout', Hagree; [lia|done].
  - exfalso. apply Hout, Hagree; [lia|done].
  - reflexivity.
Qed.

Lemma search_found budget : ∀ (L : gset string) n,
  (size L < budget)%nat →
  ∃ m, n ≤ m ∧ (search L root ext n budget = Some (Ok (f m))) ∧
       (f m ∉ L) ∧ ∀ k, n ≤ k < m → f k ∈ L.
Proof.
  induction budget as [|b IH]; intros L n Hsize; [lia|].
  cbn [search]. rewrite format_f.
  destruct (decide (f n ∈ L)) as [Hin|Hout].
  - destruct (IH (L ∖ {[ f n ]}) (n + 1)) as (m & Hm & Hs & Hnot & Hbelow).
    { assert ({[ f n ]} ⊆ L) as Hsub by (by apply singleton_subseteq_l).
      pose proof (subseteq_size _ _ Hsub) as Hle.
      pose proof (size_difference _ _ Hsub) as Hdiff.
      rewrite size_singleton in Hle, Hdiff. lia. }
    assert (∀ k, n + 1 ≤ k → f k ∈ L ↔ f k ∈ L ∖ {[ f n ]}) as Hagree.
    { intros k Hk. split; [|by intros [? _]%elem_of_difference].
      intros Hk'. apply elem_of_difference. split; [done|].
      intros Heq%elem_of_singleton%f_inj. lia. }
    exists m. split; [lia|]. split.
    { rewrite <- Hs. apply search_agree, Hagree. }
    split.
    { intros HmL. apply Hnot, Hagree; [lia|done]. }
    intros k Hk. destruct (decide (k = n)) as [->|Hne]; [done|].
    apply Hagree; [lia|]. apply Hbelow. lia.
  - exists n. split; [lia|]. split; [done|]. split; [done|].
    intros k Hk. lia.
Qed.
End Search.

(** X1.  Under [rename], a name without braces that is in the listing is opened
    as [name-n.ext] for the smallest positive [n] whose name is free. *)
Lemma open_rename_smallest (listdir : gset string) filename mode :
  mode ∈ ["w"; "wb"] → no_braces filename → filename ∈ listdir →
  ∃ n, 1 ≤ n ∧
    (open listdir filename mode "rename"
      = Some (Ok (File (numbered filename n) mode))) ∧
    (numbered filename n ∉ listdir) ∧
    ∀ k, 1 ≤ k < n → numbered filename k ∈ listdir.
Proof.
  intros Hmode Hnb Hin. unfold open.
  rewrite (bool_decide_eq_true_2 _ Hmode).
  rewrite (bool_decide_eq_true_2 (filename ∈ listdir) Hin).
  cbn [negb andb].
  destruct (no_braces_splitext filename Hnb) as [Hroot Hext].
  pose proof (numbered_inj filename) as Hinj. unfold numbered in *.
  destruct (splitext filename) as [root ext]. cbn [fst snd] in *.
  destruct (search_found root ext _
              (fun n => format_count_plain root ext n Hroot Hext) Hinj
              (S (size listdir)) listdir 1) as (m & Hm & Hs & Hnot & Hbelow);
    [lia|].
  exists m. split; [done|]. rewrite Hs. done.
Qed.

(** Under [rename], a name that is not in the listing is used unchanged. *)
Lemma open_rename_absent (listdir : gset string) filename mode :
  mode ∈ ["w"; "wb"] → filename ∉ listdir →
  open listdir filename mode "rename" = Some (Ok (File filename mode)).
Proof.
  intros Hmode Hout. unfold open.
  rewrite (bool_decide_eq_true_2 _ Hmode).
  rewrite (bool_decide_eq_false_2 (filename ∈ listdir) Hout).
  reflexivity.
Qed.

(** The scenario of the specification: with [out.txt] in the directory, two
    successive opens of [out.txt] create [out-1.txt] and then [out-2.txt]. *)
Lemma open_rename_twice :
  let d0 : gset string := {[ "out.txt" ]} in
  open d0 "out.txt" "w" "rename" = Some (Ok (File "out-1.txt" "w")) ∧
  open (created d0 (File "out-1.txt" "w")) "out.txt" "w" "rename"
    = Some (Ok (File "out-2.txt" "w")).
Proof. split; vm_compute; reflexivity. Qed.

(** *** The search always ends *)

(** Once the argument is consumed, the outcome of the scan does not depend
    on it. *)
Lemma format_from_used t :
  (∃ e, ∀ arg, format_from t true arg = Raise e) ∨
  (∃ p, ∀ arg, format_from t true arg = Ok p).
Proof.
  remember (String.length t) as n eqn:Hn. revert t Hn.
  induction n as [n IH] using lt_wf_ind. intros t ->.
  assert (∀ t', (String.length t' < String.length t)%nat →
            (∃ e, ∀ arg, format_from t' true arg = Raise e) ∨
            (∃ p, ∀ arg, format_from t' true arg = Ok p)) as IHt.
  { intros t' Hlt. by eapply IH. }
  clear IH.
  assert (∀ c t', (String.length t' < String.length t)%nat →
            (∃ e, ∀ arg, String c <$> format_from t' true arg = Raise e) ∨
            (∃ p, ∀ arg, String c <$> format_from t' true arg = Ok p)) as Hcons.
  { intros c t' Hlt. destruct (IHt t' Hlt) as [[e He]|[p Hp]].
    - left. exists e. intros arg. by rewrite He.
    - right. exists (String c p). intros arg. by rewrite Hp. }
  destruct t as [|c t]; [right; by exists ""|].
  cbn [format_from].
  destruct (Ascii.eqb c lbrace).
  { destruct t as [|d t]; [left; by eexists|].
    destruct (Ascii.eqb d lbrace); [apply Hcons; cbn; lia|].
    destruct (Ascii.eqb d rbrace); left; by eexists. }
  destruct (Ascii.eqb c rbrace).
  { destruct t as [|d t]; [left; by eexists|].
    destruct (Ascii.eqb d rbrace); [apply Hcons; cbn; lia|].
    left; by eexists. }
  apply Hcons. cbn. lia.
Qed.

(** The candidates for a stem and an extension: [format] raises for every
    number, or the candidates are a fixed text around the number. *)
Lemma format_count_shape root ext :
  (∃ e, ∀ n, format_count root ext n = Raise e) ∨
  (∃ p q, ∀ n, format_count root ext n = Ok (p +:+ str n +:+ q)).
Proof.
  unfold format_count. cbn [join].
  enough ((∃ e, ∀ arg, format_from (root +:+ "-{}" +:+ ext) false arg = Raise e) ∨
          (∃ p q, ∀ arg, format_from (root +:+ "-{}" +:+ ext) false arg
                          = Ok (p +:+ arg +:+ q))) as [[e He]|(p & q & Hpq)].
  { left. exists e. intros n. apply He. }
  { right. exists p, q. intros n. apply Hpq. }
  remember (String.length root) as n eqn:Hn. revert root Hn.
  induction n as [n IH] using lt_wf_ind. intros root ->.
  assert (∀ r, (String.length r < String.length root)%nat →
            (∃ e, ∀ arg, format_from (r +:+ "-{}" +:+ ext) false arg = Raise e) ∨
            (∃ p q, ∀ arg, format_from (r +:+ "-{}" +:+ ext) false arg
                            = Ok (p +:+ arg +:+ q))) as IHr.
  { intros r Hlt. by eapply IH. }
  clear IH.
  assert (∀ c r, (String.length r < String.length root)%nat →
            (∃ e, ∀ arg,
               String c <$> format_from (r +:+ "-{}" +:+ ext) false arg = Raise e) ∨
            (∃ p q, ∀ arg,
               String c <$> format_from (r +:+ "-{}" +:+ ext) false arg
                 = Ok (p +:+ arg +:+ q))) as Hcons.
  { intros c r Hlt. destruct (IHr r Hlt) as [[e He]|(p & q & Hpq)].
    - left. exists e. intros arg. by rewrite He.
    - right. exists (String c p), q. intros arg. by rewrite Hpq. }
  assert (∀ t,
            (∃ e, ∀ arg, String.append arg <$> format_from t true arg = Raise e) ∨
            (∃ p q, ∀ arg, String.append arg <$> format_from t true arg
                            = Ok (p +:+ arg +:+ q))) as Hfield.
  { intros t. destruct (format_from_used t) as [[e He]|[q Hq]].
    - left. exists e. intros arg. by rewrite He.
    - right. exists "", q. intros arg. by rewrite Hq. }
  destruct root as [|c root].
  { change (("" +:+ "-{}" +:+ ext)) with (String "-" (String lbrace (String rbrace ext))).
    destruct (Hfield ext) as [[e He]|(p & q & Hpq)].
    - left. exists e. intros arg.
      rewrite format_from_literal, format_from_field, He by done. done.
    - right. exists (String "-" p), q. intros arg.
      rewrite format_from_literal, format_from_field, Hpq by done. done. }
  change (String c root +:+ "-{}" +:+ ext)
    with (String c (root +:+ "-{}" +:+ ext)).
  cbn [format_from].
  destruct (Ascii.eqb c lbrace).
  { destruct root as [|d root].
    { left. by eexists. }
    change (String d root +:+ "-{}" +:+ ext)
      with (String d (root +:+ "-{}" +:+ ext)).
    cbv beta iota.
    destruct (Ascii.eqb d lbrace); [apply Hcons; cbn; lia|].
    destruct (Ascii.eqb d rbrace); [apply Hfield|].
    left. by eexists. }
  destruct (Ascii.eqb c rbrace).
  { destruct root as [|d root].
    { left. by eexists. }
    change (String d root +:+ "-{}" +:+ ext)
      with (String d (root +:+ "-{}" +:+ ext)).
    cbv beta iota.
    destruct (Ascii.eqb d rbrace); [apply Hcons; cbn; lia|].
    left. by eexists. }
  apply Hcons. cbn. lia.
Qed.

(** X3.  [open] always comes to a result: the loop over the candidates ends
    within the budget it is given. *)
Lemma open_total (listdir : gset string) filename mode exists_ :
  is_Some (open listdir filename mode exists_).
Proof.
  unfold open.
  destruct (negb _); [done|]. destruct (negb _); [done|].
  destruct (_ && _); [|done]. destruct (bool_decide _); [done|].
  destruct (splitext filename) as [root ext].
  destruct (format_count_shape root ext) as [[e He]|(p & q & Hpq)].
  - cbn [search]. rewrite He. done.
  - assert (Inj (=) (=) (fun n => p +:+ str n +:+ q)) as Hinj.
    { intros n m Heq. apply String.app_inj, append_inj_r in Heq.
      by apply (inj pretty) in Heq. }
    destruct (search_found root ext _ Hpq Hinj (S (size listdir)) listdir 1)
      as (m & _ & -> & _); [lia|]. done.
Qed.

(** C4 at a failing input.  With [a{}.txt] in the directory, opening
    [a{}.txt] under [rename] raises IndexError, the braces of the name being
    read as a second replacement field, while [a{}-1.txt], the name with the
    smallest free suffix, is not in the listing. *)
Theorem rename_raises_on_braces :
  let listdir : gset string := {[ "a{}.txt" ]} in
  ("a{}.txt" ∈ listdir) ∧
  numbered "a{}.txt" 1 = "a{}-1.txt" ∧
  ("a{}-1.txt" ∉ listdir) ∧
  open listdir "a{}.txt" "w" "rename" = Some (Raise IndexError).
Proof.
  cbn zeta. split; [by apply elem_of_singleton|].
  split; [reflexivity|]. split.
  - refine (bool_decide_unpack _ _). vm_compute. exact I.
  - vm_compute. reflexivity.
Qed.

(** With doubled braces the name is altered instead: [a{{.txt] is opened
    as [a{-1.txt]. *)
Lemma rename_alters_doubled_braces :
  open {[ "a{{.txt" ]} "a{{.txt" "w" "rename"
    = Some (Ok (File "a{-1.txt" "w")).
Proof. vm_compute. reflexivity. Qed.

End FileNamingFacts.

(** ** The context stack of tree-style sinks *)

Lemma length_removelast {A} (l : list A) :
  length (removelast l) = Nat.pred (length l).
Proof.
  induction l as [|x [|y l] IH]; [done..|].
  change (S (length (removelast (y :: l))) = S (length l)).
  rewrite IH. done.
Qed.

Lemma list_pop_snoc {A} (l : list A) x : list_pop (l ++ [x]) = Ok l.
Proof.
  unfold list_pop. rewrite removelast_last.
  destruct l; reflexivity.
Qed.

Lemma list_pop_length {A} (l l' : list A) :
  list_pop l = Ok l' → length l = S (length l').
Proof.
  destruct l as [|x l]; [discriminate|].
  intros [= <-].
  change (length (x :: l) = S (length (removelast (x :: l)))).
  rewrite length_removelast. done.
Qed.

Lemma slice_list_from_drop {A} (l : list A) (i : Z) :
  0 ≤ i → slice_list_from l i = drop (Z.to_nat i) l.
Proof.
  intros Hi. unfold slice_list_from.
  destruct (Z.ltb_spec i 0); [lia|done].
Qed.

Lemma slice_list_from_end {A} (l : list A) :
  slice_list_from l (Z.of_nat (length l)) = [].
Proof.
  rewrite slice_list_from_drop by lia. rewrite Nat2Z.id. apply drop_all.
Qed.

Lemma slice_list_from_app {A} (l l' : list A) :
  slice_list_from (l ++ l') (Z.of_nat (length l)) = l'.
Proof.
  rewrite slice_list_from_drop by lia. rewrite Nat2Z.id.
  rewrite drop_app_length. done.
Qed.

Lemma slice_list_from_length {A} (l : list A) (i : Z) :
  0 ≤ i ≤ Z.of_nat (length l) →
  Z.of_nat (length (slice_list_from l i)) = Z.of_nat (length l) - i.
Proof.
  intros Hi. rewrite slice_list_from_drop by lia.
  rewrite length_drop. lia.
Qed.

Module ContextTreeLogFacts.
Import ContextTreeLog.

Section Facts.
Context {B : Type} {sink : TreeSink B}.
Variable procid : option Z.

Lemma run_app ops1 ops2 (self : t B) :
  run procid (ops1 ++ ops2) self = run procid ops2 (run procid ops1 self).
Proof. apply fold_left_app. Qed.

Lemma run_cons o ops (self : t B) :
  run procid (o :: ops) self = run procid ops (step procid self o).1.
Proof. reflexivity. Qed.

(** The loop of [write] keeps the stack, advances the printed prefix by
    one per title and renders one push event per title, in order. *)
Lemma print_pushes titles : ∀ self : t B,
  let self' := fold_left print_push titles self in
  _context self' = _context self ∧
  _printed_context self' = _printed_context self + Z.of_nat (length titles) ∧
  rendered self' = rendered self ++ (PushEvent <$> titles).
Proof.
  induction titles as [|title titles IH]; intros self; cbn [fold_left].
  - cbn. rewrite app_nil_r. repeat split; lia.
  - destruct (IH (print_push self title)) as (Hctx & Hprinted & Hrendered).
    cbn zeta. rewrite Hctx, Hprinted, Hrendered. cbn.
    rewrite <- app_assoc. repeat split; lia.
Qed.

(** What [write] does on the primary rank. *)
Lemma write_primary lv text escape (self : t B) :
  truthy procid = false →
  let self' := write procid lv text escape self in
  let titles := slice_list_from (_context self) (_printed_context self) in
  _context self' = _context self ∧
  _printed_context self' = _printed_context self + Z.of_nat (length titles) ∧
  rendered self'
    = rendered self ++ (PushEvent <$> titles) ++ [ItemEvent lv text].
Proof.
  intros Hprimary. unfold write. rewrite Hprimary. cbn zeta.
  destruct (print_pushes
              (slice_list_from (_context self) (_printed_context self)) self)
    as (Hctx & Hprinted & Hrendered).
  cbn. rewrite Hctx, Hprinted, Hrendered, <- app_assoc. done.
Qed.

(** [write] is a no-op on every other rank. *)
Lemma write_worker lv text escape (self : t B) :
  truthy procid = true → write procid lv text escape self = self.
Proof. intros Hworker. unfold write. rewrite Hworker. done. Qed.

Lemma pop_rendered (self : t B) ctx title :
  _context self = ctx ++ [title] →
  Z.of_nat (length ctx) < _printed_context self →
  _pop_context self
    = Ok {| _context := ctx;
            _printed_context := _printed_context self - 1;
            body := _print_pop_context ctx (body self);
            rendered := rendered self ++ [PopEvent] |}.
Proof.
  intros Hctx Hlt. unfold _pop_context. rewrite Hctx, list_pop_snoc. cbn.
  destruct (Z.ltb_spec (Z.of_nat (length ctx)) (_printed_context self));
    [done|lia].
Qed.

Lemma pop_silent (self : t B) ctx title :
  _context self = ctx ++ [title] →
  _printed_context self ≤ Z.of_nat (length ctx) →
  _pop_context self
    = Ok {| _context := ctx;
            _printed_context := _printed_context self;
            body := body self;
            rendered := rendered self |}.
Proof.
  intros Hctx Hle. unfold _pop_context. rewrite Hctx, list_pop_snoc. cbn.
  destruct (Z.ltb_spec (Z.of_nat (length ctx)) (_printed_context self));
    [lia|done].
Qed.

Lemma step_pop_rendered (self : t B) ctx title :
  _context self = ctx ++ [title] →
  Z.of_nat (length ctx) < _printed_context self →
  let self' := (step procid self Pop).1 in
  _context self' = ctx ∧
  _printed_context self' = _printed_context self - 1 ∧
  rendered self' = rendered self ++ [PopEvent].
Proof.
  intros Hctx Hlt. cbn. rewrite (pop_rendered self ctx title Hctx Hlt). done.
Qed.

Lemma prefix_in_stack_step (self : t B) o :
  prefix_in_stack self → prefix_in_stack (step procid self o).1.
Proof.
  unfold prefix_in_stack. intros Hinv. destruct o as [title mayskip now| |lv text escape].
  - cbn. rewrite length_app. cbn. lia.
  - cbn. unfold _pop_context.
    destruct (list_pop (_context self)) as [ctx|e] eqn:Hpop; cbn; [|done].
    apply list_pop_length in Hpop.
    destruct (Z.ltb_spec (Z.of_nat (length ctx)) (_printed_context self));
      cbn; lia.
  - cbn. destruct (truthy procid) eqn:Hrank.
    + rewrite write_worker by done. done.
    + destruct (write_primary lv text escape self Hrank) as (Hctx & Hprinted & _).
      rewrite Hctx, Hprinted, slice_list_from_length by done. lia.
Qed.

Lemma prefix_in_stack_run ops : ∀ self : t B,
  prefix_in_stack self → prefix_in_stack (run procid ops self).
Proof.
  induction ops as [|o ops IH]; intros self Hinv; [done|].
  rewrite run_cons. apply IH, prefix_in_stack_step, Hinv.
Qed.

Lemma prefix_in_stack_init (b : B) : prefix_in_stack (__init__ b).
Proof. unfold prefix_in_stack. cbn. lia. Qed.

(** A pop renders one pop event when the entry it removes had been
    rendered, and nothing otherwise. *)
Lemma pop_emits (self : t B) :
  emitted procid self Pop = if top_rendered self then [PopEvent] else [].
Proof.
  unfold emitted, top_rendered. cbn [step]. unfold _pop_context.
  destruct (list_pop (_context self)) as [ctx|e] eqn:Hpop.
  - apply list_pop_length in Hpop.
    rewrite bool_decide_eq_true_2 by (intros Hnil; rewrite Hnil in Hpop; done).
    rewrite Hpop. cbn [andb mbind result_bind].
    replace (Z.of_nat (S (length ctx)) - 1) with (Z.of_nat (length ctx)) by lia.
    destruct (Z.of_nat (length ctx) <? _printed_context self); cbn.
    + rewrite drop_app_length. done.
    + rewrite drop_all. done.
  - destruct (_context self); [|discriminate].
    cbn. rewrite drop_all. done.
Qed.

(** C1.  On the primary rank, for every tree-style sink: a push followed
    by its pop, with no write in between, renders nothing; and from a state
    whose entered contexts are all rendered, three nested pushes and one
    write render exactly the three push events, in stack order, and then
    the item, and the three pops that follow render exactly three pop
    events. *)
Theorem lazy_flush :
  truthy procid = false →
  (∀ (self : t B) title mayskip now,
     prefix_in_stack self →
     rendered (run procid [Push title mayskip now; Pop] self)
       = rendered self) ∧
  (∀ (self : t B) a b c ma mb mc na nb nc lv text escape,
     _printed_context self = Z.of_nat (length (_context self)) →
     let pushes := [Push a ma na; Push b mb nb; Push c mc nc] in
     rendered (run procid (pushes ++ [Write lv text escape]) self)
       = rendered self
         ++ [PushEvent a; PushEvent b; PushEvent c; ItemEvent lv text] ∧
     rendered (run procid (pushes ++ [Write lv text escape; Pop; Pop; Pop]) self)
       = rendered self
         ++ [PushEvent a; PushEvent b; PushEvent c; ItemEvent lv text;
             PopEvent; PopEvent; PopEvent]).
Proof.
  intros Hprimary. split.
  - intros self title mayskip now [_ Hle]. cbn.
    erewrite pop_silent; [done|done|]. cbn. exact Hle.
  - intros self a b c ma mb mc na nb nc lv text escape Hflushed pushes.
    set (s3 := run procid pushes self).
    assert (_context s3 = _context self ++ [a; b; c]) as Hctx3
      by (cbn; by rewrite <- !app_assoc).
    assert (_printed_context s3 = Z.of_nat (length (_context self)))
      as Hprinted3 by done.
    assert (rendered s3 = rendered self) as Hrendered3 by done.
    set (s4 := write procid lv text escape s3).
    destruct (write_primary lv text escape s3 Hprimary)
      as (Hctx4 & Hprinted4 & Hrendered4).
    fold s4 in Hctx4, Hprinted4, Hrendered4.
    rewrite Hctx3, Hprinted3, slice_list_from_app in Hprinted4, Hrendered4.
    rewrite Hrendered3 in Hrendered4. rewrite Hctx3 in Hctx4.
    cbn [length fmap list_fmap app] in Hprinted4, Hrendered4.
    assert (run procid (pushes ++ [Write lv text escape]) self = s4) as Hrun4
      by done.
    clearbody s4. split; [by rewrite Hrun4, Hrendered4|].
    replace (pushes ++ [Write lv text escape; Pop; Pop; Pop])
      with ((pushes ++ [Write lv text escape]) ++ [Pop; Pop; Pop])
      by (by rewrite <- app_assoc).
    rewrite run_app, Hrun4.
    destruct (step_pop_rendered s4 (_context self ++ [a; b]) c)
      as (Hctx5 & Hprinted5 & Hrendered5);
      [by rewrite Hctx4, <- app_assoc
      |rewrite Hprinted4, !length_app; cbn; lia|].
    rewrite run_cons. set (s5 := (step procid s4 Pop).1) in *. clearbody s5.
    destruct (step_pop_rendered s5 (_context self ++ [a]) b)
      as (Hctx6 & Hprinted6 & Hrendered6);
      [by rewrite Hctx5, <- app_assoc
      |rewrite Hprinted5, Hprinted4, !length_app; cbn; lia|].
    rewrite run_cons. set (s6 := (step procid s5 Pop).1) in *. clearbody s6.
    destruct (step_pop_rendered s6 (_context self) a)
      as (Hctx7 & Hprinted7 & Hrendered7);
      [done|rewrite Hprinted6, Hprinted5, Hprinted4; lia|].
    rewrite run_cons. set (s7 := (step procid s6 Pop).1) in *. clearbody s7.
    cbn [run fold_left].
    rewrite Hrendered7, Hrendered6, Hrendered5, Hrendered4, <- !app_assoc.
    done.
Qed.

End Facts.

(** The two scenarios of C1 on a fresh [HtmlLog]. *)
Lemma lazy_flush_witness :
  rendered (run None [Push "a" false 0; Pop] (__init__ (HtmlLog.Build "")))
    = [] ∧
  rendered
    (run None
       ([Push "a" false 0; Push "b" false 0; Push "c" false 0]
        ++ [Write Info "x" true; Pop; Pop; Pop])
       (__init__ (HtmlLog.Build "")))
  = [] ++ [PushEvent "a"; PushEvent "b"; PushEvent "c"; ItemEvent Info "x";
           PopEvent; PopEvent; PopEvent].
Proof.
  pose proof (lazy_flush (B := HtmlLog.body) None eq_refl) as [Hpair Hnested].
  split.
  - apply (Hpair (__init__ (HtmlLog.Build "")) "a" false 0).
    apply prefix_in_stack_init.
  - apply (Hnested (__init__ (HtmlLog.Build ""))
             "a" "b" "c" false false false 0 0 0 Info "x" true eq_refl).
Defined.

End ContextTreeLogFacts.

(** ** The recorder *)

Module RecordLogFacts.
Import RecordLog.

Section Facts.
Context {T : Type} {log : Log T}.
Variable procid : option Z.

Lemma record_run_cons o ops (self : t T) :
  run procid (o :: ops) self = run procid ops (step procid self o).1.
Proof. reflexivity. Qed.

(** The old log's [open] is called with three arguments: the call raises
    before anything is yielded. *)
Lemma open_enter_raises filename mode lv exists_ (self : t T) :
  open_enter filename mode lv exists_ self
    = (append_contexts self, Raise TypeError).
Proof. unfold open_enter. cbn. by destruct self. Qed.

Lemma with_open_raises filename mode lv exists_ data (self : t T) :
  with_open filename mode lv exists_ data self
    = (append_contexts self, Some TypeError).
Proof. unfold with_open. rewrite open_enter_raises. done. Qed.

Lemma appended_in_contexts_append (self : t T) :
  appended_in_contexts (append_contexts self).
Proof. unfold appended_in_contexts. cbn. lia. Qed.

Lemma appended_in_contexts_step (self : t T) o :
  appended_in_contexts self → appended_in_contexts (step procid self o).1.
Proof.
  intros Hinv.
  destruct o as [title mayskip now| |lv text|filename mode lv exists_ data].
  - revert Hinv. unfold appended_in_contexts. cbn. rewrite length_app. cbn. lia.
  - revert Hinv. unfold appended_in_contexts. cbn. unfold context_exit.
    destruct (Iface.context_exit (_old_log self)) as [old raised]. cbn.
    destruct (list_pop (_contexts self)) as [ctxs|e] eqn:Hpop; cbn; [|done].
    apply list_pop_length in Hpop.
    destruct (Z.ltb_spec (Z.of_nat (length ctxs)) (_appended_contexts self));
      cbn; lia.
  - cbn. unfold write. destruct (truthy procid); cbn [negb].
    + exact Hinv.
    + unfold appended_in_contexts. cbn. lia.
  - cbn [step]. rewrite with_open_raises. apply appended_in_contexts_append.
Qed.

Lemma appended_in_contexts_run ops : ∀ self : t T,
  appended_in_contexts self → appended_in_contexts (run procid ops self).
Proof.
  induction ops as [|o ops IH]; intros self Hinv; [done|].
  rewrite record_run_cons. apply IH, appended_in_contexts_step, Hinv.
Qed.

Lemma appended_in_contexts_init (old : T) :
  appended_in_contexts (entered old).
Proof. unfold appended_in_contexts. cbn. lia. Qed.

(** Leaving a context appends one ['exitcontext'] when the context had
    been appended to the buffer, and nothing otherwise. *)
Lemma exit_appends (self : t T) :
  appended procid self Exit
    = if top_appended self then [exitcontext] else [].
Proof.
  unfold appended, top_appended. cbn [step]. unfold context_exit.
  destruct (Iface.context_exit (_old_log self)) as [old raised]. cbn.
  destruct (list_pop (_contexts self)) as [ctxs|e] eqn:Hpop.
  - apply list_pop_length in Hpop.
    rewrite bool_decide_eq_true_2 by (intros Hnil; rewrite Hnil in Hpop; done).
    rewrite Hpop. cbn [andb].
    replace (Z.of_nat (S (length ctxs)) - 1) with (Z.of_nat (length ctxs)) by lia.
    destruct (Z.of_nat (length ctxs) <? _appended_contexts self); cbn.
    + rewrite drop_app_length. done.
    + rewrite drop_all. done.
  - destruct (_contexts self); [|discriminate].
    cbn. rewrite drop_all. done.
Qed.

End Facts.
End RecordLogFacts.

(** C3.  After every sequence of pushes, pops and writes on a tree-style
    sink the printed prefix lies within the context stack, and a pop renders
    exactly one pop event when the entry it removes had been rendered and
    none otherwise.  The recorder keeps its count of appended contexts
    within its list of contexts in the same way, and leaving a context
    appends exactly one ['exitcontext'] when that context had been appended
    and none otherwise. *)
Theorem printed_prefix_within_stack :
  (∀ (B : Type) (sink : TreeSink B) (procid : option Z)
     (ops : list ContextTreeLog.op) (b : B),
     let self := ContextTreeLog.run procid ops (ContextTreeLog.__init__ b) in
     ContextTreeLog.prefix_in_stack self ∧
     ContextTreeLog.emitted procid self ContextTreeLog.Pop
       = if ContextTreeLog.top_rendered self then [PopEvent] else []) ∧
  (∀ (T : Type) (log : Log T) (procid : option Z)
     (ops : list RecordLog.op) (old : T),
     let self := RecordLog.run procid ops (RecordLog.entered old) in
     RecordLog.appended_in_contexts self ∧
     RecordLog.appended procid self RecordLog.Exit
       = if RecordLog.top_appended self then [RecordLog.exitcontext] else []).
Proof.
  split.
  - intros B sink procid ops b self. split.
    + apply ContextTreeLogFacts.prefix_in_stack_run,
        ContextTreeLogFacts.prefix_in_stack_init.
    + apply ContextTreeLogFacts.pop_emits.
  - intros T log procid ops old self. split.
    + apply RecordLogFacts.appended_in_contexts_run,
        RecordLogFacts.appended_in_contexts_init.
    + apply RecordLogFacts.exit_appends.
Qed.

(** C8.  [RecordLog.open] appends the pending contexts and then raises
    TypeError, whatever the old log, the arguments and the data the caller
    meant to write: the old log's [open] is called without [exists].  No
    ['open'] message is appended. *)
Theorem record_open_raises :
  ∀ (T : Type) (log : Log T) filename mode lv exists_ data
    (self : RecordLog.t T),
    RecordLog.with_open filename mode lv exists_ data self
      = (RecordLog.append_contexts self, Some TypeError) ∧
    RecordLog._messages (RecordLog.with_open filename mode lv exists_ data self).1
      = RecordLog._messages self
        ++ (RecordLog.entercontext <$>
              slice_list_from (RecordLog._contexts self)
                (RecordLog._appended_contexts self)).
Proof.
  intros. rewrite RecordLogFacts.with_open_raises. done.
Qed.

(** A recorder over a fresh [StdoutLog], inside the context [A], opening
    [out.txt] and writing [abc] to it: the context is appended, TypeError
    is raised, and the buffer holds no ['open'] message. *)
Lemma record_open_example :
  let log := StdoutLog_Log 4 None in
  let self :=
    RecordLog.run None [RecordLog.Enter "A" false 0]
      (RecordLog.entered StdoutLog.__init__) in
  let '(self', raised) :=
    RecordLog.with_open "out.txt" "w" User "rename" ["abc"] self in
  raised = Some TypeError ∧
  RecordLog._messages self' = [RecordLog.entercontext "A"].
Proof. cbn. done. Qed.

(** ** Recording and replaying on tree-style sinks *)

Module ReplayFacts.

Section TreeSinks.
Context {B : Type} {sink : TreeSink B}.
Variable procid : option Z.
(** The [open] of the concrete sink, which the session does not call. *)
Variable F : Type.
Variable tree_open_enter : string → string → level → string →
  ContextTreeLog.t B → ContextTreeLog.t B * result F.
Variable tree_stream_write : string → F → ContextTreeLog.t B →
  F * ContextTreeLog.t B.
Variable tree_open_exit : string → string → level → string → F →
  ContextTreeLog.t B → ContextTreeLog.t B * option exn.

Local Abbreviation tree_log :=
  (TreeLog_Log procid F tree_open_enter tree_stream_write tree_open_exit).

(** C2.  On the primary rank, for every tree-style sink: the session
    push [a], write, push [b], pop, pop, recorded by a [RecordLog] over a
    sink of that kind, leaves the messages enter [a], write, exit in the
    buffer; replaying them on a fresh sink raises nothing and renders
    exactly what the session renders when run directly on a fresh sink: the
    push of [a], the item, one pop, and nothing for [b]. *)
Theorem record_replay_fidelity :
  truthy procid = false →
  ∀ (a b : string) (lv : level) (text : string) (ma mb : bool) (na nb : Z)
    (clock : nat → Z) (old fresh : B),
    let recorded :=
      RecordLog.run (log := tree_log) procid
        [RecordLog.Enter a ma na; RecordLog.Write lv text;
         RecordLog.Enter b mb nb; RecordLog.Exit; RecordLog.Exit]
        (RecordLog.entered (ContextTreeLog.__init__ old)) in
    let direct :=
      ContextTreeLog.run procid
        [ContextTreeLog.Push a ma na; ContextTreeLog.Write lv text true;
         ContextTreeLog.Push b mb nb; ContextTreeLog.Pop; ContextTreeLog.Pop]
        (ContextTreeLog.__init__ fresh) in
    RecordLog._messages recorded
      = [RecordLog.entercontext a; RecordLog.write_ lv text;
         RecordLog.exitcontext] ∧
    ∃ replayed,
      RecordLog.replay (log := tree_log) clock recorded
        (ContextTreeLog.__init__ fresh) = (replayed, None) ∧
      ContextTreeLog.rendered replayed = ContextTreeLog.rendered direct ∧
      ContextTreeLog.rendered direct
        = [PushEvent a; ItemEvent lv text; PopEvent].
Proof.
  intros Hprimary a b lv text ma mb na nb clock old fresh.
  assert (procid = None ∨ procid = Some 0) as [Hrank|Hrank].
  { destruct procid as [r|]; [right|by left].
    cbn in Hprimary. apply negb_false_iff, Z.eqb_eq in Hprimary. by subst. }
  all: rewrite Hrank.
  all: split; [reflexivity|]; eexists.
  all: split; [reflexivity|]; split; reflexivity.
Qed.

End TreeSinks.

(** C2 on [HtmlLog], whose [open] is left out. *)
Lemma record_replay_fidelity_witness :
  let log : Log (ContextTreeLog.t HtmlLog.body) :=
    TreeLog_Log None unit
      (fun _ _ _ _ self => (self, Ok tt)) (fun _ f self => (f, self))
      (fun _ _ _ _ _ self => (self, None)) in
  let recorded :=
    RecordLog.run None
      [RecordLog.Enter "A" false 0; RecordLog.Write Info "x";
       RecordLog.Enter "B" false 1; RecordLog.Exit; RecordLog.Exit]
      (RecordLog.entered (ContextTreeLog.__init__ (HtmlLog.Build ""))) in
  let direct :=
    ContextTreeLog.run None
      [ContextTreeLog.Push "A" false 0; ContextTreeLog.Write Info "x" true;
       ContextTreeLog.Push "B" false 1; ContextTreeLog.Pop; ContextTreeLog.Pop]
      (ContextTreeLog.__init__ (HtmlLog.Build "")) in
  RecordLog._messages recorded
    = [RecordLog.entercontext "A"; RecordLog.write_ Info "x";
       RecordLog.exitcontext] ∧
  ∃ replayed,
    RecordLog.replay (fun _ => 2) recorded
      (ContextTreeLog.__init__ (HtmlLog.Build "")) = (replayed, None) ∧
    ContextTreeLog.rendered replayed = ContextTreeLog.rendered direct ∧
    ContextTreeLog.rendered direct
      = [PushEvent "A"; ItemEvent Info "x"; PopEvent].
Proof.
  exact (record_replay_fidelity (B := HtmlLog.body) None unit
           (fun _ _ _ _ self => (self, Ok tt)) (fun _ f self => (f, self))
           (fun _ _ _ _ _ self => (self, None)) eq_refl
           "A" "B" Info "x" false false 0 1 (fun _ => 2)
           (HtmlLog.Build "") (HtmlLog.Build "")).
Defined.

(** On [HtmlLog] the replay writes the very text the direct run writes. *)
Lemma record_replay_html (a b text : string) (lv : level) :
  let log : Log (ContextTreeLog.t HtmlLog.body) :=
    TreeLog_Log None unit
      (fun _ _ _ _ self => (self, Ok tt)) (fun _ f self => (f, self))
      (fun _ _ _ _ _ self => (self, None)) in
  let recorded :=
    RecordLog.run None
      [RecordLog.Enter a false 0; RecordLog.Write lv text;
       RecordLog.Enter b false 0; RecordLog.Exit; RecordLog.Exit]
      (RecordLog.entered (ContextTreeLog.__init__ (HtmlLog.Build ""))) in
  let direct :=
    ContextTreeLog.run None
      [ContextTreeLog.Push a false 0; ContextTreeLog.Write lv text true;
       ContextTreeLog.Push b false 0; ContextTreeLog.Pop; ContextTreeLog.Pop]
      (ContextTreeLog.__init__ (HtmlLog.Build "")) in
  (RecordLog.replay (fun _ => 0) recorded
     (ContextTreeLog.__init__ (HtmlLog.Build ""))).1 = direct.
Proof. reflexivity. Qed.

End ReplayFacts.

(** ** The worker rank *)

(** On rank 1 a fresh [StdoutLog] prints the message, behind the rank. *)
Lemma stdout_writes_on_worker :
  truthy (Some 1) = true ∧
  StdoutLog.stream (StdoutLog.write 4 (Some 1) Info "x" true StdoutLog.__init__)
    = "[1] x" +:+ String newline "" ∧
  StdoutLog.stream (StdoutLog.write 4 (Some 1) Info "x" true StdoutLog.__init__)
    ≠ StdoutLog.stream StdoutLog.__init__.
Proof. split; [done|]. split; [reflexivity|discriminate]. Qed.

(** C7, amended.  On a rank other than the primary one, a write on a
    tree-style sink leaves the sink as it was, a push on it renders no
    event, and the push of [IndentLog] does not touch its files; [StdoutLog]
    does not consult the rank to stay silent: a write of a level that passes
    its verbosity test prints the context trail and the text, the text
    behind the rank in brackets. *)
Theorem worker_rank_policy (procid : option Z) :
  truthy procid = true →
  (∀ (B : Type) (sink : TreeSink B) lv text escape (self : ContextTreeLog.t B),
     ContextTreeLog.write procid lv text escape self = self) ∧
  (∀ (B : Type) (sink : TreeSink B) title mayskip now
     (self : ContextTreeLog.t B),
     ContextTreeLog.rendered
       (ContextTreeLog._push_context title mayskip now self)
       = ContextTreeLog.rendered self) ∧
  (∀ ctx mayskip now (self : IndentLog.body),
     IndentLog._push_extra procid ctx mayskip now self = self) ∧
  (∀ (r : Z) verbose lv text endl (self : StdoutLog.t),
     procid = Some r →
     lv ∉ slice_list_from LEVELS verbose →
     StdoutLog.write verbose procid lv text endl self
       = {| StdoutLog._context := StdoutLog._context self;
            StdoutLog.stream :=
              print
                (join " > "
                   (StdoutLog._context self
                    ++ ["[" +:+ str r +:+ "] " +:+ text]))
                endl (StdoutLog.stream self) |}).
Proof.
  intros Hworker. repeat split.
  - intros. by apply ContextTreeLogFacts.write_worker.
  - intros. unfold IndentLog._push_extra. by rewrite Hworker.
  - intros r verbose lv text endl self -> Hlevel.
    unfold StdoutLog.write. rewrite bool_decide_eq_true_2 by done. done.
Qed.

Lemma worker_rank_policy_witness :
  ContextTreeLog.write (Some 1) Info "x" true
    (ContextTreeLog.__init__ (HtmlLog.Build ""))
    = ContextTreeLog.__init__ (HtmlLog.Build "") ∧
  StdoutLog.stream (StdoutLog.write 4 (Some 1) Info "x" true StdoutLog.__init__)
    = print (join " > " ([] ++ ["[" +:+ str 1 +:+ "] " +:+ "x"])) true "".
Proof.
  pose proof (worker_rank_policy (Some 1) eq_refl) as (Htree & _ & _ & Hstdout).
  split.
  - apply Htree.
  - rewrite (Hstdout 1 4 Info "x" true StdoutLog.__init__ eq_refl); [done|].
    refine (bool_decide_unpack _ _). vm_compute. exact I.
Defined.

(** ** The progress file of [IndentLog] *)

Module IndentLogFacts.
Import IndentLog.

Lemma print_lines lines : ∀ lv (self : body),
  let '(lv', self') := fold_left print_line lines (lv, self) in
  lv' = match lines with [] => lv | _ => "|" end ∧
  _prefix self' = _prefix self ∧
  _progressinterval self' = _progressinterval self.
Proof.
  induction lines as [|line lines IH]; intros lv self; [done|].
  cbn [fold_left print_line].
  specialize (IH "|" (_print (_prefix self +:+ lv +:+ " " +:+ line) self)).
  revert IH.
  generalize (fold_left print_line lines
                ("|", _print (_prefix self +:+ lv +:+ " " +:+ line) self)).
  intros [lv' self'] (-> & -> & ->). by destruct lines.
Qed.

(** After an item the progress file holds one dictionary and a newline.
    Its [logpos] is the offset of the end of the log file, its [context]
    the list of entered titles, its [text] the text as rendered; its
    [level] is the first character of the level when the text has no line,
    and the continuation mark otherwise. *)
Lemma print_item_progress ctx lv (text : string) (escape : bool)
    (self : body) :
  let rendered_text := if escape then html_escape text else text in
  let self' := _print_item ctx lv text escape self in
  _progressfile self'
    = [Dumped [("logpos", JInt (tell self'));
               ("context", JStrList ctx);
               ("text", JStr rendered_text);
               ("level",
                JStr match splitlines rendered_text with
                     | [] => html_escape (first_char (level_name lv))
                     | _ => "|"
                     end)];
       Chars (String newline "")].
Proof.
  cbn zeta. unfold _print_item.
  pose proof (print_lines
                (splitlines (if escape then html_escape text else text))
                (html_escape (first_char (level_name lv))) self) as Hlines.
  revert Hlines.
  generalize (fold_left print_line
                (splitlines (if escape then html_escape text else text))
                (html_escape (first_char (level_name lv)), self)).
  intros [lv' self'] (-> & _ & _). reflexivity.
Qed.

(** C9 at a failing input.  A fresh [IndentLog] on the primary rank, the
    context [A] entered, writes [x] at level info: the progress file then
    holds one dictionary whose [level] is the continuation mark, neither
    [info] nor its first character. *)
Theorem progress_level_is_continuation_mark :
  let sink := IndentLog.sink None in
  let self :=
    ContextTreeLog.run None
      [ContextTreeLog.Push "A" false 0; ContextTreeLog.Write Info "x" true]
      (ContextTreeLog.__init__ (entered 1)) in
  _logfile (ContextTreeLog.body self)
    = "c A" +:+ String newline (" i x" +:+ String newline "") ∧
  _progressfile (ContextTreeLog.body self)
    = [Dumped [("logpos", JInt 9);
               ("context", JStrList ["A"]);
               ("text", JStr "x");
               ("level", JStr "|")];
       Chars (String newline "")].
Proof. split; reflexivity. Qed.

End IndentLogFacts.

(** ** The active log *)

Module RegistryFacts.
Import Registry.

Section Facts.
Context {Value Traceback : Type}.
Implicit Types (w : world Value Traceback) (o : object Value Traceback).

(** An activation that succeeds saves the pointer in [_old_log] and makes
    the object the active log. *)
Lemma enter_unentered w self :
  unentered (objects w self) →
  let w' := (__enter__ self w).1 in
  (__enter__ self w).2 = Ok self ∧
  _current_log w' = Some self ∧
  _old_log (objects w' self) = Some (_current_log w) ∧
  ∀ other, other ≠ self → objects w' other = objects w other.
Proof.
  unfold unentered, __enter__. intros ->. cbn.
  rewrite fn_lookup_insert. repeat split; try done.
  intros other Hne. by rewrite fn_lookup_insert_ne.
Qed.

Lemma enter_entered w self old :
  _old_log (objects w self) = Some old →
  __enter__ self w
    = (w, Raise (RuntimeError "This context manager is not reentrant.")).
Proof. unfold __enter__. by intros ->. Qed.

Lemma exit_entered w self old exc :
  _old_log (objects w self) = Some old →
  let o := objects w self in
  let w' := (__exit__ self exc w).1 in
  (__exit__ self exc w).2 = Ok PyNone ∧
  _current_log w' = old ∧
  objects w' self = released o (close (_exit_callbacks o) (report o exc)) ∧
  ∀ other, other ≠ self → objects w' other = objects w other.
Proof.
  unfold __exit__. intros ->. cbn.
  rewrite fn_lookup_insert. repeat split; try done.
  intros other Hne. by rewrite fn_lookup_insert_ne.
Qed.

Lemma exit_unentered w self exc :
  unentered (objects w self) →
  __exit__ self exc w
    = (w, Raise (RuntimeError "This context manager is not yet entered.")).
Proof. unfold unentered, __exit__. by intros ->. Qed.

(** C5.  Activating a log object that is active raises the reentrancy
    error and leaves the world, the pointer to the active log included, as
    it was.  In particular a second activation right after a first one
    fails, and the object of the first activation stays the active log. *)
Theorem reentrant_activation_fails w self :
  (∀ old, _old_log (objects w self) = Some old →
     __enter__ self w
       = (w, Raise (RuntimeError "This context manager is not reentrant."))) ∧
  (unentered (objects w self) →
     let w1 := (__enter__ self w).1 in
     __enter__ self w1
       = (w1, Raise (RuntimeError "This context manager is not reentrant.")) ∧
     _current_log (__enter__ self w1).1 = Some self).
Proof.
  split.
  - intros old. apply enter_entered.
  - intros Hnew w1.
    destruct (enter_unentered w self Hnew) as (_ & Hcur & Hold & _).
    fold w1 in Hcur, Hold.
    rewrite (enter_entered w1 self _ Hold). done.
Qed.

(** An activation and the release that follows it give the pointer back. *)
Lemma enter_exit_restores w self exc :
  unentered (objects w self) →
  _current_log (__exit__ self exc (__enter__ self w).1).1 = _current_log w.
Proof.
  intros Hnew.
  destruct (enter_unentered w self Hnew) as (_ & _ & Hold & _).
  by destruct (exit_entered _ self _ exc Hold) as (_ & ? & _).
Qed.

Lemma well_formed_step w (x : op Value Traceback) :
  ¬ releases default_log x → well_formed w → well_formed (step w x).
Proof.
  intros Hkeep (Hcur & Hdefault & Hothers).
  destruct x as [self|self exc]; cbn [step].
  - destruct (_old_log (objects w self)) as [old|] eqn:Hold.
    + rewrite (enter_entered w self old Hold). done.
    + destruct (enter_unentered w self Hold) as (_ & Hcur' & Hold' & Hrest).
      assert (self ≠ default_log) as Hne by (intros ->; congruence).
      split; [by rewrite Hcur'|]. split; [by rewrite Hrest|].
      intros other old Hother Hsaved.
      destruct (decide (other = self)) as [->|Hne'].
      * rewrite Hold' in Hsaved. by injection Hsaved as <-.
      * rewrite Hrest in Hsaved by done. by eapply Hothers.
  - assert (self ≠ default_log) as Hne by (intros ->; by apply Hkeep).
    destruct (_old_log (objects w self)) as [old|] eqn:Hold.
    + destruct (exit_entered w self old exc Hold) as (_ & Hcur' & Hobj & Hrest).
      split; [rewrite Hcur'; by eapply Hothers|].
      split; [by rewrite Hrest|].
      intros other old' Hother Hsaved.
      destruct (decide (other = self)) as [->|Hne'].
      * rewrite Hobj in Hsaved. discriminate.
      * rewrite Hrest in Hsaved by done. by eapply Hothers.
    + rewrite (exit_unentered w self exc Hold). done.
Qed.

Lemma well_formed_run (ops : list (op Value Traceback)) : ∀ w,
  Forall (fun x => ¬ releases default_log x) ops →
  well_formed w → well_formed (run ops w).
Proof.
  induction ops as [|x ops IH]; intros w Hkeep Hwf; [done|].
  apply Forall_cons in Hkeep as [Hx Hkeep].
  cbn. apply IH; [done|]. by apply well_formed_step.
Qed.

Lemma well_formed_imported verbose procid
    (others : oid → object Value Traceback) str_value str_exn format_exception :
  (∀ self, unentered (others self)) →
  well_formed
    (imported format_exception str_value str_exn verbose procid others).
Proof.
  intros Hnew. unfold imported, well_formed, __enter__. cbn.
  rewrite !fn_lookup_insert. cbn. rewrite fn_lookup_insert.
  split; [done|]. split; [done|].
  intros self old Hne. rewrite !fn_lookup_insert_ne by done.
  rewrite Hnew. done.
Qed.

(** C10, amended.  After the import the active log is the [StdoutLog] the
    module created, entered with no predecessor.  An activation saves the pointer
    it finds, and the release that follows gives it back.  Whatever
    activations and releases a program then performs on the log objects it
    creates, as long as it does not release the default log, some log is
    active, and the module-level [_print] finds a log to write to. *)
Theorem active_log_never_unset format_exception str_value str_exn
    (verbose : Z) (procid : option Z)
    (others : oid → object Value Traceback)
    (ops : list (op Value Traceback)) :
  (∀ self, unentered (others self)) →
  Forall (fun x => ¬ releases default_log x) ops →
  let w0 := imported format_exception str_value str_exn verbose procid others in
  let w := run ops w0 in
  _current_log w0 = Some default_log ∧
  objects w0 default_log
    = activated
        (new_StdoutLog format_exception str_value str_exn verbose procid)
        None ∧
  (∀ w' self exc,
     unentered (objects w' self) →
     _old_log (objects (__enter__ self w').1 self) = Some (_current_log w') ∧
     _current_log (__exit__ self exc (__enter__ self w').1).1
       = _current_log w') ∧
  is_Some (_current_log w) ∧
  ∀ lv text, (_print lv text w).2 = None.
Proof.
  intros Hnew Hkeep w0 w.
  assert (well_formed w) as (Hcur & _ & _).
  { apply well_formed_run; [done|]. by apply well_formed_imported. }
  split; [done|]. split.
  { unfold w0, imported, __enter__. cbn. rewrite !fn_lookup_insert. cbn.
    by rewrite fn_lookup_insert. }
  split.
  { intros w' self exc Hfresh. split.
    - by destruct (enter_unentered w' self Hfresh) as (_ & _ & ? & _).
    - by apply enter_exit_restores. }
  split; [done|].
  intros lv text. unfold _print. by destruct Hcur as [cur ->].
Qed.

End Facts.

Lemma reentrant_activation_fails_witness :
  __enter__ default_log example_world
    = (example_world,
       Raise (RuntimeError "This context manager is not reentrant.")) ∧
  let w1 := (__enter__ 1%nat example_world).1 in
  __enter__ 1%nat w1
    = (w1, Raise (RuntimeError "This context manager is not reentrant.")) ∧
  _current_log (__enter__ 1%nat w1).1 = Some 1%nat.
Proof.
  split.
  - apply (proj1 (reentrant_activation_fails example_world default_log) None).
    reflexivity.
  - apply (proj2 (reentrant_activation_fails example_world 1%nat)).
    reflexivity.
Defined.

(** A [StdoutLog] entered over the default log and released by a
    KeyboardInterrupt. *)
Lemma active_log_never_unset_witness :
  let w :=
    run [Activate 1%nat; Activate 2%nat; Release 2%nat None;
         Release 1%nat (Some (OtherException "ValueError", tt, tt))]
      example_world in
  is_Some (_current_log w) ∧ (_print Info "x" w).2 = None.
Proof.
  intros w.
  destruct (active_log_never_unset
              (fun _ _ _ => Ok "traceback") (fun _ => "") (fun _ => "") 4 None
              (fun _ => new_StdoutLog (fun _ _ _ => Ok "traceback")
                          (fun _ => "") (fun _ => "") 4 None)
              [Activate 1%nat; Activate 2%nat; Release 2%nat None;
               Release 1%nat (Some (OtherException "ValueError", tt, tt))])
    as (_ & _ & _ & Hcur & Hprint).
  - intros self. reflexivity.
  - repeat (apply Forall_cons; split;
              [cbn; unfold default_log; first [lia|tauto]|]).
    constructor.
  - split; [exact Hcur|apply Hprint].
Defined.

(** The default log can be released like any other: its guard is the log
    that is active after the import, [_current_log] itself.  Releasing it
    restores the pointer saved at import time, which is [None]; the pointer
    is unset, and the module-level [_print] raises AttributeError. *)
Lemma default_release_unsets_active_log :
  _current_log example_world = Some default_log ∧
  _current_log (run [Release default_log None] example_world) = None ∧
  (_print Info "x" (run [Release default_log None] example_world)).2
    = Some AttributeError.
Proof. split; [reflexivity|]. split; reflexivity. Qed.

End RegistryFacts.

(** * Further properties *)

(** ** File naming: what [open] hands back *)

Module FileNamingMore.
Import FileNaming FileNamingFacts.

Lemma search_free (listdir : gset string) root ext budget : ∀ n name,
  search listdir root ext n budget = Some (Ok name) → name ∉ listdir.
Proof.
  induction budget as [|b IH]; intros n name; [discriminate|].
  cbn [search]. destruct (format_count root ext n) as [candidate|e];
    [|discriminate].
  destruct (decide (candidate ∈ listdir)) as [Hin|Hout]; [apply IH|].
  by intros [= <-].
Qed.

(** X2.  Under [rename] and [skip] no file is opened under a name of the
    listing: a file that [open] hands back has the requested mode and a name
    that is not in the listing, and the sentinel is handed back only under
    [skip], for the requested name, when that name is in the listing. *)
Theorem open_spares_listed_names (listdir : gset string)
    (filename mode exists_ : string) :
  exists_ ≠ "overwrite" →
  (∀ name mode',
     open listdir filename mode exists_ = Some (Ok (File name mode')) →
     mode' = mode ∧ name ∉ listdir) ∧
  (∀ name,
     open listdir filename mode exists_ = Some (Ok (Devnull name)) →
     exists_ = "skip" ∧ name = filename ∧ filename ∈ listdir).
Proof.
  intros Hpolicy. unfold open.
  destruct (negb _); [by split; intros|].
  destruct (negb _); [by split; intros|].
  rewrite (bool_decide_eq_true_2 _ Hpolicy). cbn [andb].
  destruct (bool_decide (filename ∈ listdir)) eqn:Hlisted.
  - apply bool_decide_eq_true in Hlisted.
    destruct (bool_decide (exists_ = "skip")) eqn:Hskip.
    + apply bool_decide_eq_true in Hskip.
      split; [intros; discriminate|]. by intros name [= <-].
    + destruct (splitext filename) as [root ext].
      destruct (search listdir root ext 1 (S (size listdir)))
        as [[candidate|e]|] eqn:Hsearch; cbn.
      * apply search_free in Hsearch.
        split; [|intros; discriminate]. by intros name mode' [= <- <-].
      * split; intros; discriminate.
      * split; intros; discriminate.
  - apply bool_decide_eq_false in Hlisted.
    split; [|intros; discriminate]. by intros name mode' [= <- <-].
Qed.

Lemma open_spares_listed_names_witness :
  let listdir : gset string := {[ "out.txt"; "out-1.txt" ]} in
  open listdir "out.txt" "w" "rename" = Some (Ok (File "out-2.txt" "w")) ∧
  "out-2.txt" ∉ listdir.
Proof.
  intros listdir.
  assert (open listdir "out.txt" "w" "rename"
          = Some (Ok (File "out-2.txt" "w"))) as Hopen
    by (vm_compute; reflexivity).
  split; [exact Hopen|].
  refine (proj2 (proj1 (open_spares_listed_names listdir "out.txt" "w" "rename" _)
                   "out-2.txt" "w" Hopen)).
  discriminate.
Defined.

Lemma open_rename_smallest_witness :
  let listdir : gset string := {[ "out.txt"; "out-1.txt" ]} in
  ∃ n, 1 ≤ n ∧
    (open listdir "out.txt" "w" "rename"
      = Some (Ok (File (numbered "out.txt" n) "w"))) ∧
    (numbered "out.txt" n ∉ listdir) ∧
    ∀ k, 1 ≤ k < n → numbered "out.txt" k ∈ listdir.
Proof.
  intros listdir. apply open_rename_smallest.
  - refine (bool_decide_unpack _ _). vm_compute. exact I.
  - split; reflexivity.
  - refine (bool_decide_unpack _ _). vm_compute. exact I.
Defined.

(** *** The stem and the extension *)

Lemma contains_append c s t :
  contains c (s +:+ t) = contains c s || contains c t.
Proof.
  induction s as [|a s IH]; [done|].
  cbn. destruct (Ascii.eqb a c); [done|apply IH].
Qed.

(** [rfind] finds the last occurrence: the text splits around it, and the
    character does not occur behind it. *)
Lemma rfind_from_spec c p : ∀ i last,
  (contains c p = false ∧ rfind_from c p i last = last) ∨
  (∃ pre post,
     p = pre +:+ String c post ∧ contains c post = false ∧
     rfind_from c p i last = i + Z.of_nat (String.length pre)).
Proof.
  induction p as [|a p IH]; intros i last; [by left|].
  cbn [rfind_from contains].
  destruct (IH (i + 1) (if Ascii.eqb a c then i else last))
    as [[Hnone ->]|(pre & post & -> & Hpost & ->)].
  - destruct (Ascii.eqb_spec a c) as [->|Hne].
    + right. exists "", p. cbn. split; [done|]. split; [done|lia].
    + by left.
  - right. exists (String a pre), post. cbn [String.length].
    split; [done|]. split; [done|lia].
Qed.

Lemma substring_prefix s t :
  String.substring 0 (String.length s) (s +:+ t) = s.
Proof.
  induction s as [|a s IH]; cbn.
  - by destruct t.
  - by rewrite IH.
Qed.

Lemma substring_whole t : String.substring 0 (String.length t) t = t.
Proof. induction t as [|a t IH]; cbn; [done|]. by rewrite IH. Qed.

Lemma substring_suffix s t :
  String.substring (String.length s)
    (String.length (s +:+ t) - String.length s) (s +:+ t) = t.
Proof.
  induction s as [|a s IH].
  - cbn [String.length String.append]. rewrite Nat.sub_0_r.
    apply substring_whole.
  - cbn. apply IH.
Qed.

(** Two ways to split one text: the shorter first part is a prefix of the
    longer one. *)
Lemma append_split s1 : ∀ s2 t1 t2,
  s1 +:+ t1 = s2 +:+ t2 →
  (String.length s1 < String.length s2)%nat →
  ∃ m, s2 = s1 +:+ m ∧ t1 = m +:+ t2.
Proof.
  induction s1 as [|a s1 IH]; intros s2 t1 t2 Heq Hlt.
  - exists s2. by cbn in *.
  - destruct s2 as [|b s2]; [cbn in Hlt; lia|].
    cbn in Heq, Hlt. injection Heq as <- Heq.
    destruct (IH s2 t1 t2 Heq) as (m & -> & ->); [lia|].
    by exists m.
Qed.

(** What [splitext] returns: the two parts make up the path; the extension
    is empty, or it is a dot followed by a text free of dots and of
    separators. *)
Lemma append_empty_r s : s +:+ "" = s.
Proof. induction s as [|a s IH]; cbn; [done|]. by rewrite IH. Qed.

Lemma splitext_parts p :
  (splitext p).1 +:+ (splitext p).2 = p ∧
  ((splitext p).2 = "" ∨
   ∃ e, (splitext p).2 = String "." e ∧
        contains "." e = false ∧ contains "/" e = false).
Proof.
  unfold splitext, rfind.
  destruct (_ && _) eqn:Hsplit; cbn [fst snd];
    [|split; [apply append_empty_r|by left]].
  apply andb_true_iff in Hsplit as [Hsep _]. apply Z.ltb_lt in Hsep.
  destruct (rfind_from_spec "." p 0 (-1))
    as [[_ Hdot]|(pre & post & Hp & Hpost & Hdot)]; rewrite Hdot in *.
  { destruct (rfind_from_spec "/" p 0 (-1))
      as [[_ Hidx]|(pre2 & post2 & _ & _ & Hidx)]; rewrite Hidx in Hsep; lia. }
  unfold slice_to, slice_from.
  replace (Z.to_nat (0 + Z.of_nat (String.length pre)))
    with (String.length pre) by lia.
  assert (contains "/" post = false) as Hsepfree.
  { destruct (rfind_from_spec "/" p 0 (-1))
      as [[Hnone _]|(pre2 & post2 & Hp2 & Hpost2 & Hidx)].
    - rewrite Hp, contains_append in Hnone.
      apply orb_false_iff in Hnone as [_ Hnone]. cbn in Hnone. done.
    - rewrite Hidx in Hsep.
      destruct (append_split pre2 pre (String "/" post2) (String "." post))
        as (m & _ & Hm); [by rewrite <- Hp, <- Hp2|lia|].
      destruct m as [|b m]; [discriminate|].
      cbn in Hm. injection Hm as <- ->.
      rewrite contains_append in Hpost2.
      apply orb_false_iff in Hpost2 as [_ Hpost2]. cbn in Hpost2. done. }
  rewrite Hp, substring_prefix, substring_suffix.
  split; [done|]. right. by exists post.
Qed.

Lemma search_candidate (listdir : gset string) root ext budget : ∀ n name,
  search listdir root ext n budget = Some (Ok name) →
  ∃ k, n ≤ k ∧ format_count root ext k = Ok name.
Proof.
  induction budget as [|b IH]; intros n name; [discriminate|].
  cbn [search]. destruct (format_count root ext n) as [candidate|e] eqn:Hn;
    [|discriminate].
  destruct (decide (candidate ∈ listdir)) as [Hin|Hout].
  - intros Hrest. destruct (IH _ _ Hrest) as (k & Hk & Hname).
    exists k. split; [lia|done].
  - intros [= <-]. exists n. split; [lia|done].
Qed.

(** X4.  For a requested name without braces, the candidate that the
    loop of [open] builds for the number [n], by [str.format] on the stem
    and the extension that [splitext] gives joined by ['-{}'], is the
    requested name with [-n] put in between the two: stem and extension
    make up the name, and the extension is empty or the text from the last
    dot on, which holds no separator.  It is the name [numbered] stands
    for, and every file that [open] hands back under [rename] for a name of
    the listing has such a name, for a positive number. *)
Theorem candidate_keeps_name (filename : string) (n : Z) :
  no_braces filename →
  ∃ root ext,
    filename = root +:+ ext ∧
    format_count (splitext filename).1 (splitext filename).2 n
      = Ok (root +:+ "-" +:+ str n +:+ ext) ∧
    numbered filename n = root +:+ "-" +:+ str n +:+ ext ∧
    (ext = "" ∨
     ∃ e, ext = String "." e ∧
          contains "." e = false ∧ contains "/" e = false) ∧
    ∀ (listdir : gset string) mode name mode',
      filename ∈ listdir →
      open listdir filename mode "rename" = Some (Ok (File name mode')) →
      ∃ k, 1 ≤ k ∧ name = root +:+ "-" +:+ str k +:+ ext.
Proof.
  intros Hnb.
  destruct (splitext_parts filename) as [Hparts Hext].
  destruct (FileNamingFacts.no_braces_splitext filename Hnb) as [Hroot Hdot].
  unfold numbered, open. destruct (splitext filename) as [root ext].
  cbn [fst snd] in *. exists root, ext.
  split; [done|].
  split; [by apply FileNamingFacts.format_count_plain|].
  split; [done|]. split; [done|].
  intros listdir mode name mode' Hin.
  destruct (negb _); [discriminate|]. destruct (negb _); [discriminate|].
  rewrite (bool_decide_eq_true_2 (filename ∈ listdir) Hin).
  rewrite bool_decide_eq_true_2 by discriminate.
  rewrite bool_decide_eq_false_2 by discriminate.
  cbn [andb negb].
  destruct (search listdir root ext 1 (S (size listdir)))
    as [[found|e]|] eqn:Hsearch; cbn; try discriminate.
  intros [= <- <-].
  destruct (search_candidate _ _ _ _ _ _ Hsearch) as (k & Hk & Hname).
  exists k. split; [done|].
  rewrite FileNamingFacts.format_count_plain in Hname by done.
  by injection Hname as <-.
Qed.

Lemma candidate_keeps_name_witness :
  ∃ root ext,
    "run.tar.gz" = root +:+ ext ∧
    format_count (splitext "run.tar.gz").1 (splitext "run.tar.gz").2 3
      = Ok (root +:+ "-" +:+ str 3 +:+ ext) ∧
    numbered "run.tar.gz" 3 = root +:+ "-" +:+ str 3 +:+ ext ∧
    (ext = "" ∨
     ∃ e, ext = String "." e ∧
          contains "." e = false ∧ contains "/" e = false) ∧
    ∀ (listdir : gset string) mode name mode',
      "run.tar.gz" ∈ listdir →
      open listdir "run.tar.gz" mode "rename"
        = Some (Ok (File name mode')) →
      ∃ k, 1 ≤ k ∧ name = root +:+ "-" +:+ str k +:+ ext.
Proof.
  apply (candidate_keeps_name "run.tar.gz" 3). split; reflexivity.
Defined.

End FileNamingMore.

(** ** Tree-style sinks: the rendered history is well nested *)

Module TreeMore.
Import ContextTreeLog.

Lemma open_titles_from_app events1 : ∀ events2 stack,
  open_titles_from (events1 ++ events2) stack
    = open_titles_from events1 stack ≫= open_titles_from events2.
Proof.
  induction events1 as [|[title| |lv text] events1 IH]; intros events2 stack;
    cbn; [done|apply IH| |apply IH].
  destruct stack; [done|apply IH].
Qed.

Lemma open_titles_from_pushes titles : ∀ stack,
  open_titles_from (PushEvent <$> titles) stack = Some (stack ++ titles).
Proof.
  induction titles as [|title titles IH]; intros stack; cbn.
  - by rewrite app_nil_r.
  - rewrite IH. by rewrite <- app_assoc.
Qed.

Section Nesting.
Context {B : Type} {sink : TreeSink B}.
Variable procid : option Z.

Lemma nested_step (self : t B) o :
  nested self → nested (step procid self o).1.
Proof.
  intros [Hinv Hopen]. split; [by apply ContextTreeLogFacts.prefix_in_stack_step|].
  destruct Hinv as [Hlo Hhi]. unfold open_titles in *.
  destruct o as [title mayskip now| |lv text escape].
  - cbn. rewrite Hopen. f_equal. rewrite take_app_le by lia. done.
  - cbn. unfold _pop_context.
    destruct (list_pop (_context self)) as [ctx|e] eqn:Hpop; cbn; [|done].
    pose proof (list_pop_length _ _ Hpop) as Hlen.
    assert (∃ x, _context self = ctx ++ [x]) as [x Hctx].
    { destruct (_context self) as [|y l] eqn:Hc; [discriminate|].
      injection Hpop as <-. exists (List.last (y :: l) y).
      apply app_removelast_last. done. }
    rewrite Hctx in Hopen, Hhi. rewrite length_app in Hhi. cbn in Hhi.
    destruct (Z.ltb_spec (Z.of_nat (length ctx)) (_printed_context self));
      cbn.
    + rewrite open_titles_from_app, Hopen. cbn.
      replace (Z.to_nat (_printed_context self)) with (S (length ctx)) by lia.
      rewrite take_ge by (rewrite length_app; cbn; lia).
      replace (Z.to_nat (Z.of_nat (S (length ctx)) - 1)) with (length ctx)
        by lia.
      rewrite removelast_last, take_ge by lia.
      by destruct ctx.
    + rewrite Hopen. f_equal. rewrite take_app_le by lia. done.
  - cbn. destruct (truthy procid) eqn:Hrank.
    + rewrite ContextTreeLogFacts.write_worker by done. done.
    + destruct (ContextTreeLogFacts.write_primary procid lv text escape self Hrank)
        as (Hctx & Hprinted & Hrendered).
      rewrite Hctx, Hprinted, Hrendered.
      rewrite slice_list_from_length by done.
      rewrite slice_list_from_drop by done.
      rewrite open_titles_from_app, Hopen. cbn.
      rewrite open_titles_from_app, open_titles_from_pushes. cbn.
      rewrite take_drop. f_equal. rewrite take_ge by lia. done.
Qed.

Lemma nested_run ops : ∀ self : t B,
  nested self → nested (run procid ops self).
Proof.
  induction ops as [|o ops IH]; intros self Hnested; [done|].
  rewrite ContextTreeLogFacts.run_cons. apply IH. by apply nested_step.
Qed.

(** X5.  Whatever the pushes, pops and writes on a fresh tree-style sink, every
    pop event of the rendered history closes the push event that is open
    last, and the titles that are open in the end are the part of the
    context stack below the printed prefix: all of the stack after a write
    on the primary rank, none once the stack is empty. *)
Theorem rendered_well_nested (ops : list op) (b : B) :
  let self := run procid ops (__init__ b) in
  open_titles (rendered self)
    = Some (take (Z.to_nat (_printed_context self)) (_context self)) ∧
  (_context self = [] → open_titles (rendered self) = Some []) ∧
  (∀ lv text escape,
     truthy procid = false →
     open_titles (rendered (write procid lv text escape self))
       = Some (_context self)).
Proof.
  intros self.
  assert (nested self) as Hnested.
  { apply nested_run.
    split; [apply ContextTreeLogFacts.prefix_in_stack_init|done]. }
  destruct Hnested as [Hinv Hopen]. split; [done|]. split.
  - intros Hempty. rewrite Hopen, Hempty. by rewrite take_nil.
  - intros lv text escape Hrank.
    pose proof (nested_step self (Write lv text escape) (conj Hinv Hopen))
      as [Hinv' Hopen'].
    cbn in Hopen'. rewrite Hopen'.
    destruct (ContextTreeLogFacts.write_primary procid lv text escape self Hrank)
      as (Hctx & Hprinted & _).
    rewrite Hctx, Hprinted, slice_list_from_length by done.
    f_equal. apply take_ge. lia.
Qed.

End Nesting.

Lemma rendered_well_nested_witness :
  open_titles
    (rendered
       (write None Info "x" true
          (run None [Push "a" false 0; Push "b" false 0]
             (__init__ (HtmlLog.Build "")))))
  = Some ["a"; "b"].
Proof.
  apply (proj2 (proj2 (rendered_well_nested (B := HtmlLog.body) None
                         [Push "a" false 0; Push "b" false 0]
                         (HtmlLog.Build "")))
           Info "x" true eq_refl).
Defined.

End TreeMore.

(** ** [IndentLog]: indentation, the log file, the progress file *)

Module IndentLogMore.
Import ContextTreeLog.

Lemma spaces_snoc n : spaces n +:+ " " = spaces (S n).
Proof. induction n as [|n IH]; cbn; [done|]. by rewrite IH. Qed.

Lemma drop_last_spaces n : drop_last (spaces (S n)) = spaces n.
Proof.
  induction n as [|n IH]; [done|].
  change (String " " (drop_last (spaces (S n))) = String " " (spaces n)).
  by rewrite IH.
Qed.

Lemma append_assoc s t u : (s +:+ t) +:+ u = s +:+ t +:+ u.
Proof. induction s as [|a s IH]; cbn; [done|]. by rewrite IH. Qed.

Lemma extends_refl b : extends b b.
Proof. exists "". by rewrite FileNamingMore.append_empty_r. Qed.

Lemma extends_trans b1 b2 b3 : extends b1 b2 → extends b2 b3 → extends b1 b3.
Proof.
  intros [s1 H1] [s2 H2]. exists (s1 +:+ s2).
  by rewrite H2, H1, append_assoc.
Qed.

Lemma extends_print s b : extends b (IndentLog._print s b).
Proof. eexists. cbn. unfold print. reflexivity. Qed.

Lemma print_lines_extends lines : ∀ lv (b : IndentLog.body),
  extends b (fold_left IndentLog.print_line lines (lv, b)).2.
Proof.
  induction lines as [|line lines IH]; intros lv b; [apply extends_refl|].
  cbn [fold_left IndentLog.print_line].
  eapply extends_trans; [|apply IH]. apply extends_print.
Qed.

Lemma print_lines_prefix lines : ∀ lv (b : IndentLog.body),
  IndentLog._prefix (fold_left IndentLog.print_line lines (lv, b)).2
    = IndentLog._prefix b.
Proof.
  induction lines as [|line lines IH]; intros lv b; [done|].
  cbn [fold_left IndentLog.print_line]. by rewrite IH.
Qed.

(** What [_print_item] leaves: the prefix as it was, a longer log file, and
    a progress file of one dictionary that points at the end of the log
    file. *)
Lemma print_item_effect ctx lv text escape (b : IndentLog.body) :
  let b' := IndentLog._print_item ctx lv text escape b in
  IndentLog._prefix b' = IndentLog._prefix b ∧
  extends b b' ∧
  ∃ shown mark,
    IndentLog._progressfile b'
      = [Dumped [("logpos", JInt (IndentLog.tell b'));
                 ("context", JStrList ctx);
                 ("text", shown); ("level", mark)];
         Chars (String newline "")].
Proof.
  cbn zeta. unfold IndentLog._print_item.
  pose proof (print_lines_prefix
                (splitlines (if escape then html_escape text else text))
                (html_escape (first_char (level_name lv))) b) as Hprefix.
  pose proof (print_lines_extends
                (splitlines (if escape then html_escape text else text))
                (html_escape (first_char (level_name lv))) b) as Hext.
  revert Hprefix Hext.
  generalize (fold_left IndentLog.print_line
                (splitlines (if escape then html_escape text else text))
                (html_escape (first_char (level_name lv)), b)).
  intros [lv' b'] Hprefix Hext. cbn in *.
  split; [done|]. split; [done|]. by eexists _, _.
Qed.

Section Files.
Variable procid : option Z.

Local Abbreviation indent := (IndentLog.sink procid).

Lemma print_pushes_indent titles : ∀ self : t IndentLog.body,
  0 ≤ _printed_context self →
  IndentLog._prefix (body self) = spaces (Z.to_nat (_printed_context self)) →
  let self' := fold_left (print_push (sink := indent)) titles self in
  IndentLog._prefix (body self')
    = spaces (Z.to_nat (_printed_context self')) ∧
  extends (body self) (body self').
Proof.
  induction titles as [|title titles IH]; intros self Hpos Hprefix;
    cbn [fold_left].
  - split; [done|apply extends_refl].
  - destruct (IH (print_push (sink := indent) self title)) as [Hp Hext].
    + cbn. lia.
    + cbn. rewrite Hprefix, spaces_snoc. f_equal. lia.
    + split; [done|]. eapply extends_trans; [|exact Hext].
      cbn. unfold IndentLog._print_push_context. cbn.
      eexists. unfold print. reflexivity.
Qed.

Lemma step_extends (self : t IndentLog.body) o :
  extends (body self) (body (step (sink := indent) procid self o).1).
Proof.
  destruct o as [title mayskip now| |lv text escape].
  - cbn. unfold IndentLog._push_extra.
    destruct (truthy procid); [apply extends_refl|].
    destruct (now <? _); [apply extends_refl|].
    exists "". cbn. by rewrite FileNamingMore.append_empty_r.
  - cbn. unfold _pop_context.
    destruct (list_pop (_context self)) as [ctx|e]; cbn; [|apply extends_refl].
    destruct (_ <? _); [|apply extends_refl].
    exists "". cbn. by rewrite FileNamingMore.append_empty_r.
  - cbn. unfold write. destruct (truthy procid); [apply extends_refl|].
    cbn.
    set (titles := slice_list_from (_context self) (_printed_context self)).
    eapply extends_trans; [|apply print_item_effect].
    clearbody titles. revert self.
    induction titles as [|title titles IH]; intros self; cbn [fold_left];
      [apply extends_refl|].
    eapply extends_trans; [|apply IH].
    cbn. unfold IndentLog._print_push_context. cbn.
    eexists. unfold print. reflexivity.
Qed.

Lemma tidy_step (self : t IndentLog.body) o :
  tidy self → tidy (step (sink := indent) procid self o).1.
Proof.
  intros (Hpos & Hprefix & Hprogress). unfold tidy.
  destruct o as [title mayskip now| |lv text escape].
  - cbn. unfold IndentLog._push_extra.
    destruct (truthy procid); [done|].
    destruct (now <? _); [done|].
    split; [done|]. split; [done|]. right. cbn. by eexists _, _, _.
  - cbn. unfold _pop_context.
    destruct (list_pop (_context self)) as [ctx|e]; cbn; [|done].
    destruct (Z.ltb_spec (Z.of_nat (length ctx)) (_printed_context self));
      cbn; [|done].
    split; [lia|]. split.
    + rewrite Hprefix.
      replace (Z.to_nat (_printed_context self))
        with (S (Z.to_nat (_printed_context self - 1))) by lia.
      apply drop_last_spaces.
    + destruct Hprogress as [?|(c & shown & mark & Hfile)]; [by left|].
      right. cbn. by exists c, shown, mark.
  - cbn. unfold write. destruct (truthy procid); [done|]. cbn.
    destruct (print_pushes_indent
                (slice_list_from (_context self) (_printed_context self))
                self Hpos Hprefix) as [Hp _].
    destruct (ContextTreeLogFacts.print_pushes (sink := indent)
                (slice_list_from (_context self) (_printed_context self)) self)
      as (_ & Hprinted & _).
    set (pushed := fold_left (print_push (sink := indent)) _ self) in *.
    destruct (print_item_effect (_context pushed) lv text escape (body pushed))
      as (Hprefix' & _ & shown & mark & Hfile).
    split; [lia|]. split; [by rewrite Hprefix'|].
    right. by exists (_context pushed), shown, mark.
Qed.

Lemma tidy_run ops : ∀ self : t IndentLog.body,
  tidy self → tidy (run (sink := indent) procid ops self).
Proof.
  induction ops as [|o ops IH]; intros self Htidy; [done|].
  rewrite ContextTreeLogFacts.run_cons. apply IH. by apply tidy_step.
Qed.

(** X6.  On a fresh [IndentLog], after any pushes, pops and writes, the prefix
    that indents the lines is one space per printed context. *)
Theorem indentation_is_printed_depth (ops : list op) (interval : Z) :
  let self :=
    run (sink := indent) procid ops (__init__ (IndentLog.entered interval)) in
  IndentLog._prefix (body self) = spaces (Z.to_nat (_printed_context self)) ∧
  _printed_context self ≤ Z.of_nat (length (_context self)).
Proof.
  intros self.
  assert (tidy self) as (_ & Hprefix & _).
  { apply tidy_run. split; [done|]. split; [done|]. by left. }
  split; [done|].
  apply (ContextTreeLogFacts.prefix_in_stack_run (sink := indent)),
    ContextTreeLogFacts.prefix_in_stack_init.
Qed.

(** X7.  On a fresh [IndentLog], after any pushes, pops and writes, the
    progress file is empty, and so is the log file, or it holds exactly one
    dictionary with the keys [logpos], [context], [text] and [level] and a
    newline, and its [logpos] is the offset of the end of the log file, in
    bytes. *)
Theorem progress_points_at_log_end (ops : list op) (interval : Z) :
  let self :=
    run (sink := indent) procid ops (__init__ (IndentLog.entered interval)) in
  (IndentLog._progressfile (body self) = [] ∧
   IndentLog._logfile (body self) = "") ∨
  ∃ ctx shown mark,
    IndentLog._progressfile (body self)
      = [Dumped [("logpos", JInt (IndentLog.tell (body self)));
                 ("context", JStrList ctx);
                 ("text", shown); ("level", mark)];
         Chars (String newline "")].
Proof.
  intros self.
  assert (tidy self) as (_ & _ & Hprogress); [|done].
  apply tidy_run. split; [done|]. split; [done|]. by left.
Qed.

(** X8.  The log file only grows: whatever the state of an [IndentLog] and the
    operations on it, the log file afterwards starts with the log file
    before. *)
Theorem log_file_only_grows (ops : list op) (self : t IndentLog.body) :
  ∃ suffix,
    IndentLog._logfile (body (run (sink := indent) procid ops self))
      = IndentLog._logfile (body self) +:+ suffix.
Proof.
  revert self. induction ops as [|o ops IH]; intros self.
  - apply extends_refl.
  - rewrite ContextTreeLogFacts.run_cons.
    eapply extends_trans; [apply step_extends|apply IH].
Qed.

End Files.

(** The offset counts bytes, not characters: an item whose text is the one
    character of code 233 puts [i], a space, two bytes and a line feed in
    the log file. *)
Lemma logpos_counts_bytes :
  IndentLog._progressfile
    (body (run (sink := IndentLog.sink None) None
             [Write Info (String (ascii_of_nat 233) "") true]
             (__init__ (IndentLog.entered 1))))
  = [Dumped [("logpos", JInt 5); ("context", JStrList []);
             ("text", JStr (String (ascii_of_nat 233) ""));
             ("level", JStr "|")];
     Chars (String newline "")].
Proof. reflexivity. Qed.

End IndentLogMore.

(** ** [StdoutLog]: verbosity and context scopes *)

Module StdoutMore.
Import StdoutLog.

Lemma level_dropped (k : nat) (lv : level) :
  bool_decide (lv ∉ drop k LEVELS) = (HtmlLog.level_index lv <? Z.of_nat k).
Proof.
  destruct k as [|[|[|[|[|k]]]]]; try (by destruct lv).
  change (drop (S (S (S (S (S k))))) LEVELS) with (drop k (@nil level)).
  rewrite drop_nil.
  rewrite bool_decide_eq_true_2 by apply not_elem_of_nil.
  symmetry. apply Z.ltb_lt. destruct lv; cbn; lia.
Qed.

(** X9.  [write] prints the levels that come before [config.verbose] in
    [LEVELS], a negative [verbose] counting from the end, and no other:
    a level that is shown adds one line, the context trail and the text
    joined by [ > ], the text behind the rank when there is one; a level
    that is not shown leaves the log as it was. *)
Theorem stdout_verbosity (verbose : Z) (procid : option Z) (lv : level)
    (text : string) (endl : bool) (self : t) :
  let shown := if verbose <? 0 then Z.max 0 (5 + verbose) else verbose in
  let tagged :=
    match procid with
    | Some r => "[" +:+ str r +:+ "] " +:+ text
    | None => text
    end in
  (HtmlLog.level_index lv < shown →
   write verbose procid lv text endl self
     = {| _context := _context self;
          stream := print (join " > " (_context self ++ [tagged])) endl
                      (stream self) |}) ∧
  (shown ≤ HtmlLog.level_index lv →
   write verbose procid lv text endl self = self).
Proof.
  intros shown tagged. unfold write, slice_list_from.
  change (Z.of_nat (length LEVELS)) with 5. fold shown.
  assert (0 ≤ shown) as Hshown
    by (unfold shown; destruct (Z.ltb_spec verbose 0); lia).
  rewrite level_dropped, Z2Nat.id by done. clearbody shown.
  split; intros Hlevel.
  - replace (_ <? _) with true by (symmetry; apply Z.ltb_lt; lia). done.
  - replace (_ <? _) with false by (symmetry; apply Z.ltb_ge; lia). done.
Qed.

Lemma stdout_verbosity_witness :
  stream (write 3 None User "u" true __init__) = "u" +:+ String newline "" ∧
  write 3 None Info "i" true __init__ = __init__.
Proof.
  split.
  - rewrite (proj1 (stdout_verbosity 3 None User "u" true __init__));
      [reflexivity|cbn; lia].
  - apply (proj2 (stdout_verbosity 3 None Info "i" true __init__)).
    cbn. lia.
Defined.

(** X10.  A context scope of [StdoutLog]: leaving the scope right after
    entering it gives the log back as it was; a write of a shown level in
    between prints the trail with the title of the scope in it and leaves
    the contexts as they were; leaving a scope on a log that has no context
    raises IndexError. *)
Theorem stdout_context_scope (title : string) (mayskip : bool) (self : t) :
  _pop_context (_push_context title mayskip self) = Ok self ∧
  (∀ verbose lv text,
     lv ∉ slice_list_from LEVELS verbose →
     _pop_context
       (write verbose None lv text true (_push_context title mayskip self))
       = Ok {| _context := _context self;
               stream :=
                 print (join " > " (_context self ++ [title; text])) true
                   (stream self) |}) ∧
  (_context self = [] → _pop_context self = Raise IndexError).
Proof.
  split; [|split].
  - unfold _pop_context, _push_context. cbn. rewrite list_pop_snoc.
    by destruct self.
  - intros verbose lv text Hshown. unfold write.
    rewrite bool_decide_eq_true_2 by done.
    unfold _pop_context, _push_context, _mkstr. cbn.
    rewrite list_pop_snoc. cbn. by rewrite <- app_assoc.
  - unfold _pop_context. by intros ->.
Qed.

Lemma stdout_context_scope_witness :
  _pop_context (write 4 None Info "x" true (_push_context "A" false __init__))
    = Ok {| _context := [];
            stream := "A > x" +:+ String newline "" |} ∧
  _pop_context __init__ = Raise IndexError.
Proof.
  destruct (stdout_context_scope "A" false __init__) as (_ & Hwrite & Hempty).
  split.
  - rewrite (Hwrite 4 Info "x"); [reflexivity|].
    refine (bool_decide_unpack _ _). vm_compute. exact I.
  - apply Hempty. reflexivity.
Defined.

End StdoutMore.

(** ** The recorder: what it forwards, what it buffers, what a replay
    renders *)

Module RecordMore.

Section AnyLog.
Context {T : Type} {log : Log T}.
Variable procid : option Z.

Lemma record_step_old_log (self : RecordLog.t T) (c : call) :
  RecordLog._old_log (RecordLog.step procid self (record_op c)).1
    = perform (RecordLog._old_log self) c.
Proof.
  destruct c as [title mayskip now| |lv text]; cbn.
  - done.
  - unfold RecordLog.context_exit.
    destruct (context_exit (RecordLog._old_log self)) as [old raised]. cbn.
    destruct (list_pop (RecordLog._contexts self)) as [ctxs|e]; [|done].
    by destruct (_ <? _).
  - unfold RecordLog.write. by destruct (truthy procid).
Qed.

(** X11.  The recorder is transparent: the log that was active before receives
    every context entry, context exit and write of the session, in order
    and as if it were called directly, on every rank; an [open] reaches it
    not at all. *)
Theorem recorder_forwards_session (calls : list call) (old : T) :
  RecordLog._old_log
    (RecordLog.run procid (record_op <$> calls) (RecordLog.entered old))
    = fold_left perform calls old ∧
  ∀ filename mode lv exists_ data (self : RecordLog.t T),
    RecordLog._old_log
      (RecordLog.with_open filename mode lv exists_ data self).1
      = RecordLog._old_log self.
Proof.
  split.
  - change old with (RecordLog._old_log (RecordLog.entered old)) at 2.
    generalize (RecordLog.entered old).
    induction calls as [|c calls IH]; intros self; [done|].
    cbn [fmap list_fmap fold_left].
    rewrite RecordLogFacts.record_run_cons, IH, record_step_old_log. done.
  - intros. by rewrite RecordLogFacts.with_open_raises.
Qed.

(** X12.  On a rank other than the primary one a session of context entries,
    context exits and writes leaves the buffer empty: nothing of it can be
    replayed. *)
Theorem worker_session_not_recorded (calls : list call) (old : T) :
  truthy procid = true →
  RecordLog._messages
    (RecordLog.run procid (record_op <$> calls) (RecordLog.entered old))
    = [].
Proof.
  intros Hworker.
  enough (∀ self : RecordLog.t T,
            RecordLog._messages self = [] →
            RecordLog._appended_contexts self = 0 →
            RecordLog._messages
              (RecordLog.run procid (record_op <$> calls) self) = [])
    as Hall by (by apply Hall).
  induction calls as [|c calls IH]; intros self Hm Ha; [done|].
  cbn [fmap list_fmap]. rewrite RecordLogFacts.record_run_cons.
  destruct c as [title mayskip now| |lv text]; cbn [record_op RecordLog.step fst].
  - by apply IH.
  - unfold RecordLog.context_exit.
    destruct (context_exit (RecordLog._old_log self)) as [old' raised]. cbn.
    destruct (list_pop (RecordLog._contexts self)) as [ctxs|e]; cbn;
      [|by apply IH].
    rewrite Ha.
    destruct (Z.ltb_spec (Z.of_nat (length ctxs)) 0); [lia|].
    by apply IH.
  - unfold RecordLog.write. rewrite Hworker. cbn. by apply IH.
Qed.

Lemma replay_from_app clock messages1 : ∀ messages2 i contexts (current : T),
  RecordLog.replay_from clock i (messages1 ++ messages2) contexts current
    = match RecordLog.replay_from clock i messages1 contexts current with
      | (contexts', current', None) =>
          RecordLog.replay_from clock (i + length messages1) messages2
            contexts' current'
      | failed => failed
      end.
Proof.
  induction messages1 as [|m messages1 IH];
    intros messages2 i contexts current.
  - cbn. by rewrite Nat.add_0_r.
  - destruct m as [title| |lv text|filename mode lv exists_ data];
      cbn [app RecordLog.replay_from length].
    + rewrite IH. by rewrite Nat.add_succ_r.
    + destruct (list_pop contexts) as [popped|e]; [|done].
      destruct (context_exit current) as [current' [e|]]; [done|].
      rewrite IH. by rewrite Nat.add_succ_r.
    + rewrite IH. by rewrite Nat.add_succ_r.
    + destruct (open_enter filename mode lv exists_ current)
        as [current' [f|e]]; [|done].
      destruct (stream_write data f current') as [f' current''].
      destruct (open_exit filename mode lv exists_ f' current'')
        as [current3 [e|]]; [done|].
      rewrite IH. by rewrite Nat.add_succ_r.
Qed.

End AnyLog.

Lemma worker_session_not_recorded_witness :
  RecordLog._messages
    (RecordLog.run (log := StdoutLog_Log 4 (Some 1)) (Some 1)
       (record_op <$> [ContextEnter "A" false 0; WriteText Info "x";
                       ContextExit])
       (RecordLog.entered StdoutLog.__init__))
  = [].
Proof.
  apply (worker_session_not_recorded (log := StdoutLog_Log 4 (Some 1)) (Some 1)).
  reflexivity.
Defined.

End RecordMore.

(** ** Replaying any session on a tree-style sink *)

Module ReplayMore.
Import ContextTreeLog.

Section TreeSinks.
Context {B : Type} {sink : TreeSink B}.
Variable procid : option Z.
Variable F : Type.
Variable tree_open_enter : string → string → level → string →
  t B → t B * result F.
Variable tree_stream_write : string → F → t B → F * t B.
Variable tree_open_exit : string → string → level → string → F →
  t B → t B * option exn.

Local Abbreviation tree_log :=
  (TreeLog_Log procid F tree_open_enter tree_stream_write tree_open_exit).

Lemma list_pop_inv {A} (l l' : list A) :
  list_pop l = Ok l' → ∃ x, l = l' ++ [x].
Proof.
  destruct l as [|y l]; [discriminate|].
  intros [= <-]. exists (List.last (y :: l) y).
  apply app_removelast_last. done.
Qed.

(** Replaying the ['entercontext'] messages of a write enters the titles
    and renders nothing. *)
Lemma replay_enters clock titles : ∀ i rest held (T : t B),
  ∃ T' : t B,
    RecordLog.replay_from (log := tree_log) clock i
      ((RecordLog.entercontext <$> titles) ++ rest) held T
      = RecordLog.replay_from (log := tree_log) clock (i + length titles) rest
          (held ++ titles) T' ∧
    _context T' = _context T ++ titles ∧
    _printed_context T' = _printed_context T ∧
    rendered T' = rendered T ∧
    ((∀ ctx mayskip now b, _push_extra ctx mayskip now b = b) →
     body T' = body T).
Proof.
  induction titles as [|title titles IH]; intros i rest held T.
  - exists T. cbn. rewrite Nat.add_0_r, !app_nil_r. done.
  - cbn [fmap list_fmap app RecordLog.replay_from].
    destruct (IH (S i) rest (held ++ [title])
                (_push_context title false (clock i) T))
      as (T' & Hsteps & Hctx & Hprinted & Hrendered & Hbody).
    exists T'. split.
    { etransitivity; [exact Hsteps|].
      cbn [length]. rewrite Nat.add_succ_r, <- app_assoc. done. }
    split; [by rewrite Hctx; cbn; rewrite <- app_assoc|].
    split; [done|]. split; [done|].
    intros Hextra. rewrite (Hbody Hextra). cbn. apply Hextra.
Qed.

(** One call of the session, on the recorder and on the direct sink, and
    the replay of the messages the call appends. *)
Lemma replayed_like_step clock i (c : call)
    (R : RecordLog.t (t B)) (D T : t B) held :
  replayed_like R D T held →
  let R' := (RecordLog.step (log := tree_log) procid R (record_op c)).1 in
  let D' := (step procid D (tree_op c)).1 in
  ∃ batch T' held',
    RecordLog._messages R' = RecordLog._messages R ++ batch ∧
    RecordLog.replay_from (log := tree_log) clock i batch held T = (held', T', None) ∧
    replayed_like R' D' T' held'.
Proof.
  intros (Hinv & Hc & Ha & Hheld & HTc & HTp & HTr & HTb) R' D'.
  assert (prefix_in_stack D') as Hinv'
    by (by apply ContextTreeLogFacts.prefix_in_stack_step).
  destruct Hinv as [Hlo Hhi].
  destruct c as [title mayskip now| |lv text].
  - (* entering a context *)
    exists [], T, held. split; [by rewrite app_nil_r|]. split; [done|].
    split; [done|]. unfold R', D'. cbn.
    split; [by rewrite Hc|]. split; [done|].
    split; [by rewrite take_app_le by lia|].
    split; [done|]. split; [done|]. split; [done|].
    intros Hextra. rewrite (HTb Hextra). symmetry. apply Hextra.
  - (* leaving a context *)
    unfold R', D'. cbn [record_op tree_op RecordLog.step step fst].
    unfold RecordLog.context_exit.
    destruct (Iface.context_exit (RecordLog._old_log R)) as [old raised].
    cbn [RecordLog.set_old_log RecordLog._contexts
         RecordLog._appended_contexts RecordLog._messages
         RecordLog._old_log].
    rewrite Hc, Ha. unfold _pop_context.
    destruct (list_pop (_context D)) as [ctx|e] eqn:Hpop.
    + destruct (list_pop_inv _ _ Hpop) as [x Hctx].
      rewrite Hctx in Hhi, Hheld. rewrite length_app in Hhi. cbn in Hhi.
      cbn [mbind result_bind].
      destruct (Z.ltb_spec (Z.of_nat (length ctx)) (_printed_context D))
        as [Hprinted|Hprinted]; cbn [fst].
      * (* the context had been rendered *)
        assert (held = ctx ++ [x]) as Hall.
        { rewrite Hheld. apply take_ge. rewrite length_app. cbn. lia. }
        eexists [RecordLog.exitcontext], _, ctx.
        split; [done|]. split.
        { cbn [RecordLog.replay_from]. rewrite Hall, list_pop_snoc.
          cbn. unfold _pop_context. rewrite HTc, Hall, list_pop_snoc. cbn.
          rewrite HTp.
          destruct (Z.ltb_spec (Z.of_nat (length ctx)) (_printed_context D));
            [|lia].
          reflexivity. }
        split; [split; cbn; lia|]. cbn.
        split; [done|]. split; [done|].
        split; [symmetry; apply take_ge; lia|].
        split; [done|]. split; [done|].
        split; [by rewrite HTr|].
        intros Hextra. by rewrite (HTb Hextra).
      * (* the context had not been rendered *)
        exists [], T, held. split; [by rewrite app_nil_r|]. split; [done|].
        split; [split; cbn; lia|]. cbn.
        split; [done|]. split; [done|].
        split; [by rewrite Hheld, take_app_le by lia|].
        done.
    + (* no context to leave *)
      exists [], T, held. split; [by rewrite app_nil_r|]. split; [done|].
      cbn. split; [done|]. unfold RecordLog.set_old_log. cbn.
      by rewrite Hc, Ha.
  - (* writing *)
    unfold R', D'. cbn [record_op tree_op RecordLog.step step fst].
    unfold RecordLog.write.
    destruct (truthy procid) eqn:Hrank; cbn [negb].
    + (* a worker: nothing is buffered, nothing is rendered *)
      exists [], T, held. split; [by rewrite app_nil_r|]. split; [done|].
      rewrite ContextTreeLogFacts.write_worker by done.
      split; [done|]. cbn. by rewrite Hc, Ha.
    + (* the primary rank *)
      unfold RecordLog.append_message, RecordLog.append_contexts,
        RecordLog.set_old_log.
      cbn [RecordLog._contexts RecordLog._appended_contexts
           RecordLog._messages RecordLog._old_log].
      rewrite Hc, Ha.
      set (titles := slice_list_from (_context D) (_printed_context D)).
      assert (titles = drop (Z.to_nat (_printed_context D)) (_context D))
        as Htitles by (by apply slice_list_from_drop).
      destruct (replay_enters clock titles i [RecordLog.write_ lv text] held T)
        as (T2 & Hsteps & Hctx2 & Hprinted2 & Hrendered2 & Hbody2).
      assert (_context T2 = _context D) as HctxD.
      { rewrite Hctx2, HTc, Hheld, Htitles. apply take_drop. }
      destruct (ContextTreeLogFacts.write_primary procid lv text true D Hrank)
        as (HDc & HDp & HDr).
      destruct (ContextTreeLogFacts.write_primary procid lv text true T2 Hrank)
        as (HTc' & HTp' & HTr').
      fold titles in HDp, HDr.
      rewrite HctxD, Hprinted2, HTp in HTp', HTr'. fold titles in HTp', HTr'.
      exists ((RecordLog.entercontext <$> titles) ++ [RecordLog.write_ lv text]),
        (write procid lv text true T2), (_context D).
      split; [by rewrite <- app_assoc|]. split.
      { rewrite Hsteps. cbn. f_equal. f_equal.
        rewrite Hheld, Htitles. apply take_drop. }
      split; [done|].
      cbn [RecordLog._contexts RecordLog._appended_contexts].
      split; [by rewrite HDc|].
      split; [rewrite HDp, Htitles, length_drop; lia|].
      split.
      { rewrite HDc, HDp. symmetry. apply take_ge.
        rewrite Htitles, length_drop. lia. }
      split; [by rewrite HTc'|]. split; [by rewrite HTp', HDp|].
      split; [by rewrite HTr', HDr, Hrendered2, HTr|].
      intros Hextra.
      assert (T2 = D) as ->; [|done].
      specialize (Hbody2 Hextra). specialize (HTb Hextra).
      clear -HctxD Hprinted2 HTp Hrendered2 HTr Hbody2 HTb.
      destruct T2, D. cbn in *. congruence.
Qed.

Lemma record_run_snoc ops o (self : RecordLog.t (t B)) :
  RecordLog.run (log := tree_log) procid (ops ++ [o]) self
    = (RecordLog.step (log := tree_log) procid
         (RecordLog.run (log := tree_log) procid ops self) o).1.
Proof. unfold RecordLog.run. by rewrite fold_left_app. Qed.

Lemma tree_run_snoc ops o (self : t B) :
  run procid (ops ++ [o]) self = (step procid (run procid ops self) o).1.
Proof. unfold run. by rewrite fold_left_app. Qed.

Lemma replayed_like_run clock (calls : list call) (old fresh : B) :
  ∃ T held,
    RecordLog.replay_from (log := tree_log) clock 0
      (RecordLog._messages
         (RecordLog.run (log := tree_log) procid (record_op <$> calls)
            (RecordLog.entered (__init__ old))))
      [] (__init__ fresh) = (held, T, None) ∧
    replayed_like
      (RecordLog.run (log := tree_log) procid (record_op <$> calls)
         (RecordLog.entered (__init__ old)))
      (run procid (tree_op <$> calls) (__init__ fresh)) T held.
Proof.
  induction calls as [|c calls IH] using rev_ind.
  - exists (__init__ fresh), []. split; [done|].
    split; [apply ContextTreeLogFacts.prefix_in_stack_init|done].
  - destruct IH as (T & held & Hsteps & Hlike).
    rewrite !fmap_app. cbn [fmap list_fmap].
    rewrite record_run_snoc, tree_run_snoc.
    set (R := RecordLog.run (log := tree_log) procid (record_op <$> calls)
                (RecordLog.entered (__init__ old))) in *.
    set (D := run procid (tree_op <$> calls) (__init__ fresh)) in *.
    destruct (replayed_like_step clock (length (RecordLog._messages R))
                c R D T held Hlike)
      as (batch & T' & held' & Hbatch & Hreplay & Hlike').
    exists T', held'. split; [|exact Hlike'].
    rewrite Hbatch, RecordMore.replay_from_app, Hsteps. exact Hreplay.
Qed.

(** The managers that [replay] releases when it returns each pop the
    stack of the sink once. *)
Lemma finalize_pops held : ∀ T : t B,
  RecordLog.finalize (log := tree_log) held T
    = run procid (replicate (length held) Pop) T.
Proof.
  induction held as [|title held IH]; intros T; [done|].
  cbn [RecordLog.finalize length replicate].
  rewrite ContextTreeLogFacts.run_cons, IH. reflexivity.
Qed.

(** Leaving the contexts that were never printed renders nothing. *)
Lemma pops_silent k : ∀ D : t B,
  0 ≤ _printed_context D →
  length (_context D) = (Z.to_nat (_printed_context D) + k)%nat →
  run procid (replicate k Pop) D
    = {| _context := take (Z.to_nat (_printed_context D)) (_context D);
         _printed_context := _printed_context D;
         body := body D; rendered := rendered D |}.
Proof.
  induction k as [|k IH]; intros D Hlo Hlen.
  - cbn. rewrite take_ge by lia. by destruct D.
  - destruct (_context D) as [|y l] eqn:Hctx using rev_ind;
      [cbn in Hlen; lia|]. clear IHl.
    rewrite length_app in Hlen. cbn [length] in Hlen.
    cbn [replicate]. rewrite ContextTreeLogFacts.run_cons. cbn [step].
    rewrite (ContextTreeLogFacts.pop_silent D l y Hctx) by lia.
    cbn [fst]. rewrite IH; cbn [_context _printed_context body rendered];
      [|done|lia].
    by rewrite take_app_le by lia.
Qed.

(** Leaving contexts that are all printed renders one pop event each. *)
Lemma pops_rendered n : ∀ T : t B,
  length (_context T) = n →
  _printed_context T = Z.of_nat n →
  let T' := run procid (replicate n Pop) T in
  _context T' = [] ∧ _printed_context T' = 0 ∧
  rendered T' = rendered T ++ replicate n PopEvent.
Proof.
  induction n as [|n IH]; intros T Hlen Hprinted.
  - cbn. rewrite app_nil_r. split; [|done].
    by apply length_zero_iff_nil.
  - destruct (_context T) as [|y l] eqn:Hctx using rev_ind;
      [cbn in Hlen; lia|]. clear IHl.
    rewrite length_app in Hlen. cbn [length] in Hlen.
    cbn [replicate]. rewrite ContextTreeLogFacts.run_cons. cbn [step].
    rewrite (ContextTreeLogFacts.pop_rendered T l y Hctx) by lia.
    cbn [fst].
    edestruct IH as (Hc & Hp & Hr); [| |rewrite Hc, Hp, Hr];
      cbn [_context _printed_context body rendered]; [lia|lia|].
    by rewrite <- app_assoc.
Qed.

(** X13.  For every session of context entries, context exits and writes,
    on every rank and for every tree-style sink: replaying what a recorder
    over such a sink has buffered, on a fresh sink, raises nothing and
    renders exactly the events of the session closed, that is of the
    session followed by the exit of every scope it left open, run directly
    on a fresh sink: the events of the session itself and one pop event for
    each context that is printed and still open.  The replay leaves no
    context entered, and the two sinks end the same when a push does
    nothing beyond the stack, as for [HtmlLog]. *)
Theorem replay_renders_session (clock : nat → Z) (calls : list call)
    (old fresh : B) :
  let recorded :=
    RecordLog.run (log := tree_log) procid (record_op <$> calls)
      (RecordLog.entered (__init__ old)) in
  let direct := run procid (tree_op <$> calls) (__init__ fresh) in
  let closed :=
    run procid
      (tree_op <$> calls ++ replicate (length (_context direct)) ContextExit)
      (__init__ fresh) in
  ∃ replayed,
    RecordLog.replay (log := tree_log) clock recorded (__init__ fresh)
      = (replayed, None) ∧
    rendered replayed = rendered closed ∧
    rendered closed
      = rendered direct
        ++ replicate (Z.to_nat (_printed_context direct)) PopEvent ∧
    _context replayed = [] ∧
    _printed_context replayed = 0 ∧
    ((∀ ctx mayskip now b, _push_extra ctx mayskip now b = b) →
     replayed = closed).
Proof.
  intros recorded direct closed.
  destruct (replayed_like_run clock calls old fresh)
    as (T & held & Hsteps &
        ([Hlo Hhi] & _ & _ & Hheld & HTc & HTp & HTr & HTb)).
  fold direct in Hlo, Hhi, Hheld, HTp, HTr, HTb.
  set (p := Z.to_nat (_printed_context direct)) in *.
  assert (length held = p) as Hlen by (rewrite Hheld, length_take; lia).
  assert (closed
          = run procid (replicate p Pop)
              {| _context := held; _printed_context := _printed_context direct;
                 body := body direct; rendered := rendered direct |})
    as Hclosed.
  { unfold closed. rewrite fmap_app, fmap_replicate.
    rewrite ContextTreeLogFacts.run_app. fold direct. cbn [tree_op].
    replace (length (_context direct))
      with ((length (_context direct) - p) + p)%nat by lia.
    rewrite replicate_add.
    rewrite ContextTreeLogFacts.run_app.
    rewrite (pops_silent (length (_context direct) - p) direct)
      by (fold p; lia).
    fold p. by rewrite <- Hheld. }
  exists (run procid (replicate p Pop) T).
  split.
  { unfold RecordLog.replay, recorded. rewrite Hsteps.
    by rewrite finalize_pops, Hlen. }
  destruct (pops_rendered p T) as (HrC & HrP & HrR);
    [by rewrite HTc|rewrite HTp; lia|].
  destruct (pops_rendered p
              {| _context := held; _printed_context := _printed_context direct;
                 body := body direct; rendered := rendered direct |})
    as (_ & _ & HcR); [done|cbn; lia|]. cbn [rendered] in HcR.
  rewrite Hclosed. split; [by rewrite HrR, HcR, HTr|].
  split; [done|]. split; [done|]. split; [done|].
  intros Hextra. f_equal. specialize (HTb Hextra).
  clear -HTc HTp HTr HTb. destruct T. cbn in *. congruence.
Qed.

End TreeSinks.

Lemma replay_renders_session_witness :
  let log : Log (t HtmlLog.body) :=
    TreeLog_Log None unit
      (fun _ _ _ _ self => (self, Ok tt)) (fun _ f self => (f, self))
      (fun _ _ _ _ _ self => (self, None)) in
  let calls :=
    [ContextEnter "A" false 0; ContextEnter "B" false 1; ContextExit;
     WriteText Info "x"; ContextEnter "C" false 2; WriteText Error "y"] in
  ∃ replayed,
    RecordLog.replay (fun _ => 3)
      (RecordLog.run None (record_op <$> calls)
         (RecordLog.entered (__init__ (HtmlLog.Build ""))))
      (__init__ (HtmlLog.Build "")) = (replayed, None) ∧
    rendered replayed
      = [PushEvent "A"; ItemEvent Info "x"; PushEvent "C";
         ItemEvent Error "y"; PopEvent; PopEvent] ∧
    replayed
      = run None (tree_op <$> calls ++ [ContextExit; ContextExit])
          (__init__ (HtmlLog.Build "")).
Proof.
  intros log calls.
  destruct (replay_renders_session (B := HtmlLog.body) None unit
              (fun _ _ _ _ self => (self, Ok tt)) (fun _ f self => (f, self))
              (fun _ _ _ _ _ self => (self, None))
              (fun _ => 3) calls (HtmlLog.Build "") (HtmlLog.Build ""))
    as (replayed & Hreplay & Hrendered & _ & _ & _ & Hsame).
  exists replayed. split; [exact Hreplay|].
  split; [rewrite Hrendered; reflexivity|].
  apply Hsame. reflexivity.
Defined.

End ReplayMore.

(** ** Escaped text *)

Module EscapeMore.

Lemma contains_escape_char c a :
  a ≠ c → contains c (String a "") = false.
Proof. intros Hne. cbn. by rewrite (proj2 (Ascii.eqb_neq a c) Hne). Qed.

(** A character that is none of the five replaced ones and none of the
    characters of the entities is in the escaped text only if it is in the
    text. *)
Lemma html_escape_keeps_out c s :
  contains c "&amp;&lt;&gt;&quot;&#x27;" = false →
  contains c s = false → contains c (html_escape s) = false.
Proof.
  intros Hentity.
  repeat (apply FileNamingFacts.contains_String in Hentity as [? Hentity]).
  induction s as [|a s IH]; [done|].
  intros [Hne Hs]%FileNamingFacts.contains_String.
  cbn [html_escape]. rewrite FileNamingMore.contains_append, (IH Hs).
  rewrite orb_false_r. unfold escape_char.
  repeat (destruct (Ascii.eqb a _);
          [by repeat (apply FileNamingFacts.contains_String; split; [done|])|]).
  by apply contains_escape_char.
Qed.

(** The escaped text holds none of the characters [<], [>], the double
    quote and the apostrophe. *)
Lemma html_escape_no_markup s :
  contains "<" (html_escape s) = false ∧
  contains ">" (html_escape s) = false ∧
  contains dquote (html_escape s) = false ∧
  contains "'" (html_escape s) = false.
Proof.
  induction s as [|a s (IH1 & IH2 & IH3 & IH4)]; [done|].
  cbn [html_escape]. rewrite !FileNamingMore.contains_append.
  rewrite IH1, IH2, IH3, IH4, !orb_false_r. unfold escape_char.
  destruct (Ascii.eqb_spec a "&"); [done|].
  destruct (Ascii.eqb_spec a "<"); [done|].
  destruct (Ascii.eqb_spec a ">"); [done|].
  destruct (Ascii.eqb_spec a dquote); [done|].
  destruct (Ascii.eqb_spec a "'"); [done|].
  repeat split; by apply contains_escape_char.
Qed.

(** X14.  An item of [HtmlLog] written with [escape] adds one [div] element to
    the file whose content holds no [<], no [>] and no quote, whatever the
    text of the item. *)
Theorem html_item_holds_no_markup (lv : level) (text : string)
    (self : HtmlLog.body) :
  ∃ shown,
    HtmlLog._file (HtmlLog._print_item lv text true self)
      = HtmlLog._file self
        +:+ ("<div " +:+ HtmlLog.attr "class" "item" +:+ " "
             +:+ HtmlLog.attr "data-loglevel" (str (HtmlLog.level_index lv))
             +:+ ">" +:+ shown +:+ "</div>")
        +:+ String newline "" ∧
    contains "<" shown = false ∧ contains ">" shown = false ∧
    contains dquote shown = false ∧ contains "'" shown = false.
Proof.
  exists (html_escape text). split; [reflexivity|].
  apply html_escape_no_markup.
Qed.

Lemma contains_remove_char c s : contains c (remove_char c s) = false.
Proof.
  induction s as [|a s IH]; [done|]. cbn.
  destruct (Ascii.eqb_spec a c) as [->|Hne]; [done|].
  cbn. by rewrite (proj2 (Ascii.eqb_neq a c) Hne).
Qed.

Lemma contains_remove_other c d s :
  contains c s = false → contains c (remove_char d s) = false.
Proof.
  induction s as [|a s IH]; [done|].
  intros [Hne Hs]%FileNamingFacts.contains_String. cbn.
  destruct (Ascii.eqb a d); [by apply IH|].
  apply FileNamingFacts.contains_String. auto.
Qed.

(** X15.  The title of a context takes one line of the log of [IndentLog]: the
    text written for it, the prefix and the mark apart, holds no line feed
    and no carriage return, whatever the title, and one line feed ends
    it. *)
Theorem indent_title_is_one_line (title : string) (self : IndentLog.body) :
  ∃ shown,
    IndentLog._logfile (IndentLog._print_push_context title self)
      = IndentLog._logfile self
        +:+ (IndentLog._prefix self +:+ "c " +:+ shown)
        +:+ String newline "" ∧
    contains newline shown = false ∧
    contains carriage_return shown = false.
Proof.
  exists (html_escape
            (remove_char carriage_return (remove_char newline title))).
  split; [reflexivity|]. split.
  - apply html_escape_keeps_out; [reflexivity|].
    apply contains_remove_other, contains_remove_char.
  - apply html_escape_keeps_out; [reflexivity|].
    apply contains_remove_char.
Qed.

End EscapeMore.

(** ** The active log: nesting and reuse *)

Module RegistryMore.
Import Registry RegistryFacts.

Section Facts.
Context {Value Traceback : Type}.
Implicit Types (w : world Value Traceback).

Lemma registry_run_app (ops1 ops2 : list (op Value Traceback)) w :
  run (ops1 ++ ops2) w = run ops2 (run ops1 w).
Proof. apply fold_left_app. Qed.

(** X16.  A log object can be used again: once activated and released it has no
    [_old_log], releasing it a second time raises and changes nothing, and
    activating it again succeeds and makes it the active log. *)
Theorem released_log_is_reusable w self exc :
  unentered (objects w self) →
  let w2 := (__exit__ self exc (__enter__ self w).1).1 in
  unentered (objects w2 self) ∧
  (∀ exc',
     __exit__ self exc' w2
       = (w2, Raise (RuntimeError "This context manager is not yet entered."))) ∧
  (__enter__ self w2).2 = Ok self ∧
  _current_log (__enter__ self w2).1 = Some self ∧
  _old_log (objects (__enter__ self w2).1 self) = Some (_current_log w).
Proof.
  intros Hnew w2.
  destruct (enter_unentered w self Hnew) as (_ & _ & Hold & _).
  destruct (exit_entered _ self _ exc Hold) as (_ & Hcur & Hobj & _).
  assert (unentered (objects w2 self)) as Hnew2.
  { unfold unentered, w2. by rewrite Hobj. }
  split; [done|]. split; [intros exc'; by apply exit_unentered|].
  destruct (enter_unentered w2 self Hnew2) as (Hret & Hcur' & Hold' & _).
  split; [done|]. split; [done|]. by rewrite Hold', <- Hcur.
Qed.

(** X17.  Activations that nest: log objects that are not active, activated one
    after the other and released in the opposite order, leave the pointer
    to the active log as it was, leave every one of them without
    [_old_log], and do not touch any other object; after the activations
    the active log is the one activated last. *)
Theorem nested_activations_restore (logs : list oid)
    (exc : oid → option (exc_info Value Traceback)) : ∀ w,
  NoDup logs →
  (∀ self, self ∈ logs → unentered (objects w self)) →
  let entered := run (Activate <$> logs) w in
  let left := run ((fun self => Release self (exc self)) <$> rev logs) entered in
  _current_log entered
    = match last logs with Some self => Some self | None => _current_log w end ∧
  _current_log left = _current_log w ∧
  (∀ self, self ∈ logs → unentered (objects left self)) ∧
  (∀ self, self ∉ logs → objects left self = objects w self).
Proof.
  induction logs as [|a logs IH]; intros w Hdup Hnew entered left.
  { by repeat split. }
  apply NoDup_cons in Hdup as [Ha Hdup].
  assert (unentered (objects w a)) as Hnewa by (apply Hnew; left).
  destruct (enter_unentered w a Hnewa) as (_ & Hcur1 & Hold1 & Hrest1).
  set (w1 := (__enter__ a w).1) in *.
  destruct (IH w1 Hdup) as (Hin & Hcur2 & Hnew2 & Hrest2).
  { intros self Hself. rewrite Hrest1 by (intros ->; done).
    apply Hnew. by right. }
  cbn zeta in Hin, Hcur2, Hnew2, Hrest2.
  set (mid := run (Activate <$> logs) w1) in *.
  set (w2 := run ((fun self => Release self (exc self)) <$> rev logs) mid) in *.
  assert (entered = mid) as Hentered by done.
  assert (left = (__exit__ a (exc a) w2).1) as Hleft.
  { unfold left. rewrite Hentered. cbn [rev].
    rewrite fmap_app, registry_run_app. done. }
  assert (_old_log (objects w2 a) = Some (_current_log w)) as Hold2
    by (by rewrite Hrest2).
  destruct (exit_entered w2 a _ (exc a) Hold2) as (_ & Hcur3 & Hobj3 & Hrest3).
  split.
  { rewrite Hentered, Hin, Hcur1.
    destruct logs as [|b logs]; [done|].
    rewrite last_cons_cons.
    destruct (last (b :: logs)) eqn:Hlast; [done|].
    by apply last_None in Hlast. }
  split; [by rewrite Hleft, Hcur3|]. split.
  - intros self [->|Hself]%elem_of_cons; rewrite Hleft.
    + unfold unentered. by rewrite Hobj3.
    + rewrite Hrest3 by (intros ->; done). by apply Hnew2.
  - intros self Hself%not_elem_of_cons. destruct Hself as [Hne Hself].
    rewrite Hleft, Hrest3, Hrest2, Hrest1 by done. done.
Qed.

End Facts.

Lemma released_log_is_reusable_witness :
  let w2 := (__exit__ 1%nat None (__enter__ 1%nat example_world).1).1 in
  (__enter__ 1%nat w2).2 = Ok 1%nat ∧
  _current_log (__enter__ 1%nat w2).1 = Some 1%nat.
Proof.
  intros w2.
  destruct (released_log_is_reusable example_world 1%nat None eq_refl)
    as (_ & _ & Hret & Hcur & _).
  by split.
Defined.

Lemma nested_activations_restore_witness :
  _current_log
    (run ((fun self => Release self None) <$> rev [1%nat; 2%nat])
       (run (Activate <$> [1%nat; 2%nat]) example_world))
  = Some default_log.
Proof.
  refine (proj1 (proj2 (nested_activations_restore [1%nat; 2%nat]
                          (fun _ => None) example_world _ _))).
  - repeat (apply NoDup_cons; split;
              [intros Hin; repeat (apply elem_of_cons in Hin as [Hin|Hin];
                                   [discriminate|]);
               by apply elem_of_nil in Hin|]).
    apply NoDup_nil. done.
  - intros self Hin.
    repeat (apply elem_of_cons in Hin as [->|Hin]; [reflexivity|]).
    by apply elem_of_nil in Hin.
Defined.

End RegistryMore.

(** ** [TeeLog]: every log gets every call *)

Module TeeMore.

Section Facts.
Context {L : Type} {log : Log L}.

Lemma tee_enter_lookup title mayskip clock (logs : list L) : ∀ first k,
  TeeLog.context_enter title mayskip clock first logs !! k
    = context_enter title mayskip (clock (first + k)%nat) <$> logs !! k.
Proof.
  induction logs as [|one logs IH]; intros first k; [done|].
  destruct k as [|k]; cbn.
  - by rewrite Nat.add_0_r.
  - rewrite IH. by rewrite Nat.add_succ_r.
Qed.

Lemma tee_exit_lookup (logs : list L) : ∀ k,
  (TeeLog.context_exit logs).1 !! k
    = (fun one => (context_exit one).1) <$> logs !! k.
Proof.
  induction logs as [|one logs IH]; intros k; [done|].
  cbn [TeeLog.context_exit].
  specialize (IH (Nat.pred k)). revert IH.
  destruct (TeeLog.context_exit logs) as [rest pending].
  destruct k as [|k]; cbn.
  - intros _. by destruct (context_exit one).
  - intros IH. by destruct (context_exit one).
Qed.

Lemma tee_write_lookup lv text (logs : list L) : ∀ k,
  TeeLog.write lv text logs !! k = write lv text <$> logs !! k.
Proof.
  induction logs as [|one logs IH]; intros k; [done|].
  destruct k as [|k]; [done|]. apply IH.
Qed.

Lemma tee_step_lookup (logs : list L) o k :
  (TeeLog.step logs o).1 !! k
    = (fun one => perform one (TeeLog.call_of k o)) <$> logs !! k.
Proof.
  destruct o as [title mayskip clock| |lv text]; cbn [TeeLog.step fst].
  - apply tee_enter_lookup.
  - apply tee_exit_lookup.
  - apply tee_write_lookup.
Qed.

(** The exception a tee raises on leaving a context is that of the first of
    its logs, in the order of the tee, that raises. *)
Lemma tee_exit_raises (logs : list L) :
  (TeeLog.context_exit logs).2
    = head (omap (fun one => (context_exit one).2) logs).
Proof.
  induction logs as [|one logs IH]; [done|].
  cbn [TeeLog.context_exit omap list_omap]. revert IH.
  destruct (TeeLog.context_exit logs) as [rest pending].
  destruct (context_exit one) as [one' [e|]]; cbn; [done|].
  by intros ->.
Qed.

(** X18.  A tee fans out: after any context entries, context exits and writes on
    the tee, each of its logs is as if it alone had received the calls,
    whatever the other logs did, raising an exception included.  When the
    tee leaves a context every log leaves its own, and the exception raised
    is that of the first log of the tee that raised. *)
Theorem tee_fans_out (ops : list TeeLog.op) (logs : list L) :
  length (TeeLog.run ops logs) = length logs ∧
  (∀ k one,
     logs !! k = Some one →
     TeeLog.run ops logs !! k
       = Some (fold_left perform (TeeLog.call_of k <$> ops) one)) ∧
  (TeeLog.context_exit logs).1
    = (fun one => (context_exit one).1) <$> logs ∧
  (TeeLog.context_exit logs).2
    = head (omap (fun one => (context_exit one).2) logs).
Proof.
  assert (∀ k, TeeLog.run ops logs !! k
               = (fun one => fold_left perform (TeeLog.call_of k <$> ops) one)
                 <$> logs !! k) as Hlookup.
  { revert logs. induction ops as [|o ops IH]; intros logs k.
    - cbn. by destruct (logs !! k).
    - change (TeeLog.run (o :: ops) logs)
        with (TeeLog.run ops (TeeLog.step logs o).1).
      rewrite IH, tee_step_lookup. by destruct (logs !! k). }
  split; [|split; [|split]].
  - apply Nat.le_antisymm.
    + apply Nat.nlt_ge. intros Hlt.
      destruct (lookup_lt_is_Some_2 _ _ Hlt) as [x Hx].
      rewrite Hlookup in Hx.
      by rewrite (lookup_ge_None_2 logs (length logs)) in Hx.
    + apply Nat.nlt_ge. intros Hlt.
      destruct (lookup_lt_is_Some_2 _ _ Hlt) as [x Hx].
      pose proof (Hlookup (length (TeeLog.run ops logs))) as Hk.
      rewrite Hx in Hk.
      by rewrite (lookup_ge_None_2 (TeeLog.run ops logs)) in Hk.
  - intros k one Hone. by rewrite Hlookup, Hone.
  - apply list_eq. intros k. rewrite tee_exit_lookup, list_lookup_fmap. done.
  - apply tee_exit_raises.
Qed.

End Facts.

(** Two [StdoutLog] under one tee, the second inside the context [B]. *)
Lemma tee_fans_out_witness :
  let log := StdoutLog_Log 4 None in
  let ops :=
    [TeeLog.Enter "A" false (fun _ => 0); TeeLog.Write Info "x"; TeeLog.Exit] in
  TeeLog.run ops [StdoutLog.__init__; StdoutLog.Build ["B"] ""] !! 1%nat
    = Some (fold_left perform (TeeLog.call_of 1 <$> ops)
              (StdoutLog.Build ["B"] "")).
Proof.
  intros log ops.
  apply (proj1 (proj2 (tee_fans_out (log := log) ops
                         [StdoutLog.__init__; StdoutLog.Build ["B"] ""]))).
  reflexivity.
Defined.

End TeeMore.

(** ** The coloured terminal log *)

Module RichMore.

Import RichOutputLog.

Lemma join_snoc sep l x :
  ∃ lead, join sep (l ++ [x]) = lead +:+ x ∧ (l = [] → lead = "").
Proof.
  induction l as [|s l IH].
  - by exists "".
  - destruct IH as (lead & Hlead & _).
    exists (s +:+ sep +:+ lead). split; [|done].
    assert (∃ y r, l ++ [x] = y :: r) as (y & r & Hyr)
      by (destruct l; cbn; eauto).
    change (join sep (s :: (l ++ [x])) = (s +:+ sep +:+ lead) +:+ x).
    rewrite Hyr in Hlead |- *.
    change (join sep (s :: y :: r)) with (s +:+ sep +:+ join sep (y :: r)).
    by rewrite Hlead, !IndentLogMore.append_assoc.
Qed.

Lemma substring_nothing s : ∀ n, String.substring n 0 s = "".
Proof.
  induction s as [|a s IH]; intros [|n]; cbn; by try apply IH.
Qed.

Lemma slice_lead lead x :
  slice_to (lead +:+ x)
    (Z.of_nat (String.length (lead +:+ x)) - Z.of_nat (String.length x))
  = lead ∧
  slice_from (lead +:+ x)
    (Z.of_nat (String.length (lead +:+ x)) - Z.of_nat (String.length x))
  = x.
Proof.
  unfold slice_to, slice_from.
  replace (Z.to_nat _) with (String.length lead)
    by (rewrite FileNamingFacts.length_append; lia).
  split; [apply FileNamingMore.substring_prefix|].
  apply FileNamingMore.substring_suffix.
Qed.

Lemma slice_all s :
  slice_to s (Z.of_nat (String.length s)) = s ∧
  slice_from s (Z.of_nat (String.length s)) = "".
Proof.
  unfold slice_to, slice_from. rewrite Nat2Z.id, Nat.sub_diag.
  split; [apply FileNamingMore.substring_whole|apply substring_nothing].
Qed.

Lemma push_prints title mayskip now self :
  negb mayskip || (_progressupdate self <=? now)%float = true →
  _push_context None title mayskip now self
  = {| _context := _context self ++ [title];
       stream := stream self +:+ progress_line self title;
       _progressupdate := (now + _progressinterval self)%float;
       _progressinterval := _progressinterval self |}.
Proof.
  intros Hgo. unfold _push_context, _mkstr, set_progressupdate, progress_line.
  cbn [truthy _context stream _progressupdate _progressinterval].
  rewrite Hgo. cbn [mbind option_bind].
  destruct (slice_all (join separator (_context self ++ [title])))
    as [-> ->].
  cbn [_context stream _progressupdate _progressinterval].
  f_equal. f_equal.
  by rewrite !IndentLogMore.append_assoc.
Qed.

Lemma push_silent procid title mayskip now self :
  truthy procid = true ∨
  negb mayskip || (_progressupdate self <=? now)%float = false →
  _push_context procid title mayskip now self
  = {| _context := _context self ++ [title];
       stream := stream self;
       _progressupdate := _progressupdate self;
       _progressinterval := _progressinterval self |}.
Proof.
  intros H. unfold _push_context.
  cbn [_context stream _progressupdate _progressinterval].
  destruct (truthy procid); [done|].
  by destruct H as [?| ->].
Qed.

Lemma write_shown verbose procid lv text endl self :
  lv ∉ slice_list_from LEVELS verbose →
  let after := write verbose procid lv text endl self in
  _context after = _context self ∧
  _progressupdate after = 0%float ∧
  _progressinterval after = _progressinterval self.
Proof.
  intros Hlv. unfold write. rewrite bool_decide_eq_true_2 by done.
  unfold _mkstr, set_progressupdate.
  cbn [_context stream _progressupdate _progressinterval mbind option_bind].
  by destruct (cmap lv) as [[??]|].
Qed.

(** X19.  A line that passes the verbosity filter is appended to the stream
    as: the erase-line code, the dim code, the trail of the open contexts
    (each title followed by the separator), and then the text itself, which
    is all that is coloured: after the reset code for the levels info and
    debug, between the code of the level's weight and colour and the reset
    code for error, warning and user.  On a worker rank the text carries the
    rank in brackets.  The contexts stay as they are, and the timestamp of
    the next progress line is reset to zero. *)
Theorem rich_line_colours_only_the_text
    verbose procid lv text endl self :
  lv ∉ slice_list_from LEVELS verbose →
  ∃ lead,
    let shown :=
      match procid with
      | Some r => "[" +:+ str r +:+ "] " +:+ text
      | None => text
      end in
    let after := write verbose procid lv text endl self in
    join separator (_context self ++ [shown]) = lead +:+ shown ∧
    (_context self = [] → lead = "") ∧
    stream after
    = print
        (String ESC "[K" +:+ String ESC "[1;30m" +:+ lead +:+
         match cmap lv with
         | None => String ESC "[0m" +:+ shown
         | Some (colorid, boldid) =>
             String ESC "[" +:+ str boldid +:+ ";3" +:+ str colorid +:+ "m"
             +:+ shown +:+ String ESC "[0m"
         end)
        endl (stream self) ∧
    _context after = _context self ∧
    _progressupdate after = 0%float.
Proof.
  intros Hlv. unfold write. rewrite bool_decide_eq_true_2 by done.
  set (shown := match procid with Some r => _ | None => _ end).
  destruct (join_snoc separator (_context self) shown)
    as (lead & Hlead & Hempty).
  exists lead. cbn zeta. fold shown.
  split; [done|]. split; [done|].
  unfold _mkstr, set_progressupdate.
  cbn [_context stream _progressupdate _progressinterval mbind option_bind].
  rewrite Hlead. destruct (slice_lead lead shown) as [-> ->].
  destruct (cmap lv) as [[colorid boldid]|];
    cbn [_context stream _progressupdate _progressinterval];
    (split; [|done]); f_equal;
    by rewrite !IndentLogMore.append_assoc.
Qed.

Lemma rich_line_colours_only_the_text_witness :
  (Error ∉ slice_list_from LEVELS 4) ∧
  ∃ lead,
    join separator (["solve"] ++ ["diverged"]) = lead +:+ "diverged" ∧
    stream (write 4 None Error "diverged" true
              {| _context := ["solve"]; stream := "";
                 _progressupdate := 7%float; _progressinterval := 1%float |})
    = print
        (String ESC "[K" +:+ String ESC "[1;30m" +:+ lead +:+
         String ESC "[" +:+ str 1 +:+ ";3" +:+ str 1 +:+ "m"
         +:+ "diverged" +:+ String ESC "[0m") true "".
Proof.
  assert (Error ∉ slice_list_from LEVELS 4) as Hlv
    by (refine (bool_decide_unpack _ _); vm_compute; exact I).
  split; [done|].
  destruct (rich_line_colours_only_the_text 4 None Error "diverged" true
              {| _context := ["solve"]; stream := "";
                 _progressupdate := 7%float; _progressinterval := 1%float |} Hlv)
    as (lead & H1 & _ & H2 & _).
  exists lead. split; [exact H1|exact H2].
Defined.

(** The comparisons of binary64 floats, as IEEE 754 has them: the order
    of two floats read the other way round is the opposite order, and there
    is none when one of them is not a number. *)
Lemma SFcompare_antisym a b :
  SFcompare b a = CompOpp <$> SFcompare a b.
Proof.
  destruct a as [s1|s1| |s1 m1 e1], b as [s2|s2| |s2 m2 e2]; cbn;
    try destruct s1; try destruct s2; try reflexivity.
  all: rewrite (Z.compare_antisym e2 e1).
  all: destruct (e2 ?= e1)%Z; cbn; try reflexivity.
  all: f_equal.
  all: change (PosDef.Pos.compare_cont Eq) with (Pos.compare_cont Eq).
  all: pose proof (Pos.compare_cont_antisym m2 m1 Eq) as H; cbn in H.
  all: rewrite <- H; by rewrite ?CompOpp_involutive.
Qed.

Lemma float_lt_not_ge (x y : float) :
  (x <? y)%float = true → (y <=? x)%float = false.
Proof.
  rewrite ltb_spec, leb_spec. unfold SFltb, SFleb.
  rewrite (SFcompare_antisym (Prim2SF x) (Prim2SF y)).
  by destruct (SFcompare (Prim2SF x) (Prim2SF y)) as [[]|].
Qed.

(** X20.  The progress lines are throttled by the time that a printed
    progress line stores, the float sum of its own time and the progress
    interval: of two skippable contexts, the second entered at a time that
    is less than the sum the first one would store, at most one prints a
    progress line: either the first one leaves the stream as it was, or the
    second one does.  On a worker rank neither prints. *)
Theorem rich_progress_is_throttled
    procid title1 title2 (now1 now2 : float) self :
  (now2 <? now1 + _progressinterval self)%float = true →
  let first := _push_context procid title1 true now1 self in
  let second := _push_context procid title2 true now2 first in
  (stream first = stream self ∨ stream second = stream first) ∧
  (truthy procid = true → stream second = stream self) ∧
  _context second = _context self ++ [title1; title2].
Proof.
  intros Hclose first second.
  destruct (truthy procid) eqn:Hrank.
  - assert (first = _) as Hfirst
      by (apply (push_silent procid title1 true now1 self); by left).
    assert (second = _) as Hsecond
      by (apply (push_silent procid title2 true now2 first); by left).
    rewrite Hsecond, Hfirst.
    cbn [_context stream]. rewrite <- app_assoc. by repeat split; try left.
  - assert (∀ t m n s, _push_context procid t m n s = _push_context None t m n s)
      as Hprimary.
    { intros. unfold _push_context. by rewrite Hrank. }
    subst first second. rewrite !Hprimary.
    destruct (negb true || (_progressupdate self <=? now1)%float) eqn:Hgo.
    + rewrite (push_prints title1 true now1 self Hgo).
      rewrite <- Hprimary, push_silent.
      * cbn [_context stream]. rewrite <- app_assoc.
        by repeat split; try right.
      * right. cbn [_progressupdate negb orb].
        by apply float_lt_not_ge.
    + rewrite <- !Hprimary.
      rewrite (push_silent procid title1 true now1 self) by by right.
      split; [by left|]. split; [done|].
      set (mid := Build _ _ _ _).
      destruct (negb true || (_progressupdate mid <=? now2)%float) eqn:Hgo2.
      * rewrite Hprimary, (push_prints title2 true now2 mid Hgo2).
        subst mid. cbn [_context]. by rewrite <- app_assoc.
      * rewrite (push_silent procid title2 true now2 mid) by by right.
        subst mid. cbn [_context]. by rewrite <- app_assoc.
Qed.

Lemma rich_progress_is_throttled_witness :
  (12 <? 10 + _progressinterval (__init__ 5))%float = true ∧
  (let first := _push_context None "a" true 10 (__init__ 5) in
   let second := _push_context None "b" true 12 first in
   (stream first = stream (__init__ 5) ∨ stream second = stream first) ∧
   (truthy None = true → stream second = stream (__init__ 5)) ∧
   _context second = _context (__init__ 5) ++ ["a"; "b"]).
Proof.
  assert ((12 <? 10 + _progressinterval (__init__ 5))%float = true) as H
    by reflexivity.
  split; [exact H|].
  exact (rich_progress_is_throttled None "a" "b" 10 12 (__init__ 5) H).
Defined.

(** The sum that is stored is rounded: with the default interval of a
    tenth of a second, a progress line printed at 1700000000 seconds is
    due again at a time that lies below 1700000000.1, and a context that
    is entered at that very time prints, as the first did. *)
Lemma due_time_is_rounded :
  let tenth := 0x1.999999999999ap-4%float in
  let due := (1700000000 + tenth)%float in
  Prim2SF due = S754_finite false 7130316800419430 (-22) ∧
  let first := _push_context None "a" true 1700000000 (__init__ tenth) in
  let second := _push_context None "b" true due first in
  stream first ≠ "" ∧ stream second ≠ stream first.
Proof.
  split; [reflexivity|]. split; [discriminate|].
  vm_compute. discriminate.
Qed.

(** X21.  A context that may not be skipped always prints its progress line
    on the primary rank, and so does a skippable one entered right after a
    printed line at any time that is not negative: a line that is written
    re-arms the progress display.  The progress line is the whole trail,
    dimmed, ended by a carriage return; the next one is due one progress
    interval later. *)
Theorem rich_line_rearms_progress
    verbose lv text endl title mayskip (now : float) self :
  lv ∉ slice_list_from LEVELS verbose →
  (0 <=? now)%float = true →
  let written := write verbose None lv text endl self in
  let entered := _push_context None title mayskip now written in
  stream entered = stream written +:+ progress_line self title ∧
  _progressupdate entered = (now + _progressinterval self)%float ∧
  stream (_push_context None title false now self)
  = stream self +:+ progress_line self title.
Proof.
  intros Hlv Hnow written entered.
  destruct (write_shown verbose None lv text endl self Hlv)
    as (Hctx & Hupd & Hint).
  fold written in Hctx, Hupd, Hint.
  subst entered. rewrite push_prints.
  - cbn [stream _progressupdate]. unfold progress_line.
    rewrite Hctx, Hint. repeat split; try done.
    by rewrite push_prints.
  - rewrite Hupd. by destruct mayskip.
Qed.

Lemma rich_line_rearms_progress_witness :
  (Info ∉ slice_list_from LEVELS 4) ∧ (0 <=? 3)%float = true ∧
  (let written := write 4 None Info "start" true (__init__ 5) in
   let entered := _push_context None "solve" true 3 written in
   stream entered = stream written +:+ progress_line (__init__ 5) "solve" ∧
   _progressupdate entered = (3 + _progressinterval (__init__ 5))%float ∧
   stream (_push_context None "solve" false 3 (__init__ 5))
   = stream (__init__ 5) +:+ progress_line (__init__ 5) "solve").
Proof.
  assert (Info ∉ slice_list_from LEVELS 4) as Hlv
    by (refine (bool_decide_unpack _ _); vm_compute; exact I).
  assert ((0 <=? 3)%float = true) as Hnow by reflexivity.
  split; [exact Hlv|]. split; [exact Hnow|].
  exact (rich_line_rearms_progress 4 Info "start" true "solve" true 3
           (__init__ 5) Hlv Hnow).
Defined.

End RichMore.

(** ** Releasing a guard: sinks and [TeeLog] *)

Module GuardsFacts.
Import Guards.

Section Facts.
Context {Value Traceback : Type}.
Variable format_exception :
  Registry.exc_type → Value → Traceback → result string.
Variable str_value : Value → string.
Variable str_exn : exn → string.
Variable caught : exn → string * Value * Traceback.
Implicit Types (w : world Value Traceback) (o : Registry.object Value Traceback).

Local Abbreviation exit :=
  (__exit__ format_exception str_value str_exn caught).












End Facts.


End GuardsFacts.
